(** * Tick protocol of the entity command buffer (cardinal/gamestate/tick.go)

    A shallow embedding of [GetTickNumbers], [StartNextTick], [FinalizeTick],
    [Recover] and [addPendingTransactionToPipe], over a model of the
    transactional key-value backend, and the properties of the two-phase
    tick protocol proved about it. *)

From Stdlib Require Import ZArith NArith Lia.
From stdpp Require Import base option list strings gmap.

Local Open Scope string_scope.
Local Open Scope N_scope.
Local Open Scope list_scope.

(** ** Errors and results *)

(** Go [error] values.  [redisNil] is the sentinel [redis.Nil] the backend
    returns for a key that was never written; [wrapped ctx e] is
    [eris.Wrap(e, ctx)]. *)
Inductive error : Type :=
| redisNil
| backendError (msg : string)
| codecError (msg : string)
| wrapped (ctx : string) (e : error).

(** [eris.Cause]: the root of a chain of wraps. *)
Fixpoint Cause (e : error) : error :=
  match e with
  | wrapped _ e' => Cause e'
  | _ => e
  end.

(** [eris.Is(e, redis.Nil)] on a root cause. *)
Definition isRedisNil (e : error) : bool :=
  match e with
  | redisNil => true
  | _ => false
  end.

(** The outcome of a Go call that returns [(value, error)]: a value, a
    non-nil error, or a run-time panic (a method call on a nil interface). *)
Inductive result (A : Type) : Type :=
| Ok (a : A)
| Err (e : error)
| Panic.
Arguments Ok {A} a.
Arguments Err {A} e.
Arguments Panic {A}.

(** ** The durable keys *)

(** Modelled from the spec: the key functions [storageStartTickKey],
    [storageEndTickKey] and [storagePendingTransactionKey] are not part of
    tick.go; the spec fixes only that they are three stable string
    identifiers owned by the tick protocol. *)
Definition storageStartTickKey : string := "ECB:START-TICK".
Definition storageEndTickKey : string := "ECB:END-TICK".
Definition storagePendingTransactionKey : string := "ECB:PENDING-TRANSACTIONS".

Definition isTickKey (k : string) : bool :=
  bool_decide (k = storageStartTickKey)
  || bool_decide (k = storageEndTickKey)
  || bool_decide (k = storagePendingTransactionKey).

(** ** The transactional key-value backend *)

Abbreviation bytes := (list Byte.byte).

(** A stored value: an unsigned counter or a byte string. *)
Inductive value : Type :=
| VUInt (n : N)
| VBytes (b : bytes).

(** A command queued in a pipeline. *)
Inductive command : Type :=
| CSet (key : string) (v : bytes)
| CIncr (key : string)
| CDelete (key : string).

(** A pipelined transaction: the commands queued so far, oldest first. *)
Record Pipe : Type := mkPipe { queued : list command }.

Definition uint64Limit : N := 2 ^ 64.

(** Modelled from the spec: the backend ([PrimitiveStorage]) is an external
    collaborator.  [db] is what has been durably committed.  [faults] is the
    failure schedule of the environment: every fallible collaborator call
    consumes its head, [Some e] making that call fail with [e]. *)
Record Storage : Type := mkStorage {
  db : gmap string value;
  faults : list (option error)
}.

(** One queued command applied to a store; [None] when the backend rejects
    it (an increment of a byte string, or past the 64-bit range). *)
Definition applyCommand (c : command) (d : gmap string value)
  : option (gmap string value) :=
  match c with
  | CSet k v => Some (<[k := VBytes v]> d)
  | CDelete k => Some (delete k d)
  | CIncr k =>
      match d !! k with
      | None => Some (<[k := VUInt 1]> d)
      | Some (VUInt n) =>
          if decide (n + 1 < uint64Limit) then Some (<[k := VUInt (n + 1)]> d)
          else None
      | Some (VBytes _) => None
      end
  end.

Fixpoint applyCommands (cs : list command) (d : gmap string value)
  : option (gmap string value) :=
  match cs with
  | [] => Some d
  | c :: rest =>
      match applyCommand c d with
      | Some d' => applyCommands rest d'
      | None => None
      end
  end.

(** The head of the failure schedule, and the schedule left after it. *)
Definition nextFault (s : Storage) : option error * Storage :=
  match faults s with
  | [] => (None, s)
  | f :: rest => (f, mkStorage (db s) rest)
  end.

(** [GetUInt64(key)]: an absent key is reported as the error [redis.Nil]. *)
Definition GetUInt64 (key : string) (s : Storage) : result N * Storage :=
  let '(f, s') := nextFault s in
  match f with
  | Some e => (Err e, s')
  | None =>
      match db s' !! key with
      | None => (Err redisNil, s')
      | Some (VUInt n) => (Ok n, s')
      | Some (VBytes _) => (Err (backendError "value is not an integer"), s')
      end
  end.

(** [GetBytes(key)]: like [GetUInt64], an absent key is [redis.Nil]. *)
Definition GetBytes (key : string) (s : Storage) : result bytes * Storage :=
  let '(f, s') := nextFault s in
  match f with
  | Some e => (Err e, s')
  | None =>
      match db s' !! key with
      | None => (Err redisNil, s')
      | Some (VBytes b) => (Ok b, s')
      | Some (VUInt _) => (Err (backendError "value is not a byte string"), s')
      end
  end.

(** [StartTransaction]: a fresh, empty pipeline. *)
Definition StartTransaction (s : Storage) : result Pipe * Storage :=
  let '(f, s') := nextFault s in
  match f with
  | Some e => (Err e, s')
  | None => (Ok (mkPipe []), s')
  end.

(** Queuing a command: nothing is written until the pipeline is committed. *)
Definition enqueue (c : command) (pipe : Pipe) (s : Storage)
  : result Pipe * Storage :=
  let '(f, s') := nextFault s in
  match f with
  | Some e => (Err e, s')
  | None => (Ok (mkPipe (queued pipe ++ [c])), s')
  end.

Definition pipeSet (pipe : Pipe) (key : string) (v : bytes) :=
  enqueue (CSet key v) pipe.
Definition pipeIncr (pipe : Pipe) (key : string) :=
  enqueue (CIncr key) pipe.
Definition pipeDelete (pipe : Pipe) (key : string) :=
  enqueue (CDelete key) pipe.

(** [EndTransaction]: all queued commands are applied, or none is. *)
Definition EndTransaction (pipe : Pipe) (s : Storage) : result unit * Storage :=
  let '(f, s') := nextFault s in
  match f with
  | Some e => (Err e, s')
  | None =>
      match applyCommands (queued pipe) (db s') with
      | Some d' => (Ok tt, mkStorage d' (faults s'))
      | None => (Err (backendError "transaction failed"), s')
      end
  end.

(** ** The command buffer and its operations *)

(** Modelled from the spec: one pending entity/component write of the
    in-memory mutation set, as the backend command it is flushed to. *)
Inductive mutation : Type :=
| MutSet (key : string) (v : bytes)
| MutDelete (key : string).

Definition mutationKey (mu : mutation) : string :=
  match mu with
  | MutSet k _ => k
  | MutDelete k => k
  end.

(** The fields of [EntityCommandBuffer] the tick protocol touches: the
    backend handle, the mutation set accumulated while simulating the
    current tick, and the cached archetype IDs. *)
Record EntityCommandBuffer : Type := mkECB {
  dbStorage : Storage;
  mutationSet : list mutation;
  pendingArchIDs : list Z
}.

(** Methods of the command buffer: state passing with Go's error return. *)
Definition M (A : Type) : Type :=
  EntityCommandBuffer -> result A * EntityCommandBuffer.

Definition ret {A} (a : A) : M A := fun m => (Ok a, m).

Definition bind {A B} (c : M A) (k : A -> M B) : M B :=
  fun m =>
    match c m with
    | (Ok a, m') => k a m'
    | (Err e, m') => (Err e, m')
    | (Panic, m') => (Panic, m')
    end.

Notation "'let*' x ':=' c 'in' k" := (bind c (fun x => k))
  (at level 10, x name, c at level 100, k at level 200).

(** A pure [(value, error)] computation used inside a method. *)
Definition lift {A} (r : result A) : M A := fun m => (r, m).

(** A call on [m.dbStorage] (or on a pipeline started from it). *)
Definition onStorage {A} (op : Storage -> result A * Storage) : M A :=
  fun m =>
    let '(r, s') := op (dbStorage m) in
    (r, mkECB s' (mutationSet m) (pendingArchIDs m)).

(** [if err != nil { return eris.Wrap(err, ctx) }]. *)
Definition wrapErr {A} (ctx : string) (c : M A) : M A :=
  fun m =>
    match c m with
    | (Err e, m') => (Err (wrapped ctx e), m')
    | other => other
    end.

(** One counter read of [GetTickNumbers]: [GetUInt64], the error wrapped,
    and [redis.Nil] as its cause turned into the value 0. *)
Definition readTick (key : string) : M N :=
  fun m =>
    match onStorage (GetUInt64 key) m with
    | (Ok v, m') => (Ok v, m')
    | (Err e, m') =>
        let err := wrapped "" e in
        if isRedisNil (Cause err) then (Ok 0, m') else (Err err, m')
    | (Panic, m') => (Panic, m')
    end.

(** [GetTickNumbers]: the start counter, then the end counter. *)
Definition GetTickNumbers : M (N * N) :=
  let* start := readTick storageStartTickKey in
  let* end_ := readTick storageEndTickKey in
  ret (start, end_).

(** Modelled from the spec: [makePipeOfRedisCommands] is not part of
    tick.go.  It starts a pipeline and serializes the full mutation set into
    backend write and delete commands queued in it. *)
Fixpoint queueMutations (ms : list mutation) (pipe : Pipe) : M Pipe :=
  match ms with
  | [] => ret pipe
  | MutSet k v :: rest =>
      let* pipe' := onStorage (pipeSet pipe k v) in queueMutations rest pipe'
  | MutDelete k :: rest =>
      let* pipe' := onStorage (pipeDelete pipe k) in queueMutations rest pipe'
  end.

Definition makePipeOfRedisCommands : M Pipe :=
  fun m =>
    (let* pipe := onStorage StartTransaction in
     queueMutations (mutationSet m) pipe) m.

(** Modelled from the spec: [DiscardPending] is not part of tick.go.  It
    clears the in-memory mutation set; tick.go checks the error it returns,
    so it is a fallible call: on failure the set is left as it was. *)
Definition DiscardPending : M unit :=
  fun m =>
    let '(f, s') := nextFault (dbStorage m) in
    match f with
    | Some e => (Err e, mkECB s' (mutationSet m) (pendingArchIDs m))
    | None => (Ok tt, mkECB s' [] (pendingArchIDs m))
    end.

(** [m.pendingArchIDs = nil]. *)
Definition clearPendingArchIDs : M unit :=
  fun m => (Ok tt, mkECB (dbStorage m) (mutationSet m) []).

(** [FinalizeTick]: the mutation set and the increment of the end counter
    go into one pipeline; after the commit the in-memory state is cleared. *)
Definition FinalizeTick : M unit :=
  let* pipe := wrapErr "failed to make redis commands pipe"
                 makePipeOfRedisCommands in
  let* pipe := wrapErr "failed to increment end tick key"
                 (onStorage (pipeIncr pipe storageEndTickKey)) in
  let* _ := wrapErr "failed to end transaction"
              (onStorage (EndTransaction pipe)) in
  let* _ := clearPendingArchIDs in
  wrapErr "failed to discard pending transaction" DiscardPending.

(** ** Messages, the transaction pool and the journal *)

(** [types.MessageID] is an integer; [types.TxHash] is a string. *)
Abbreviation MessageID := Z.

Section Journal.

(** Go's [any], the decoded payload of a transaction, and
    [sign.Transaction], the signed source transaction a payload came in. *)
Context {any Transaction : Type}.
(** The hash the pool records for a source transaction. *)
Variable HashHex : Transaction -> string.

(** An entry of the pool ([txpool.TxData]). *)
Record TxData : Type := mkTxData {
  Msg : any;
  TxHash : string;
  Tx : Transaction
}.

(** A journal record.  Its [TxHash] and [Tx] fields are named [pTxHash] and
    [pTx] here, the names being taken by [TxData]. *)
Record pendingTransaction : Type := mkPending {
  TypeID : MessageID;
  pTxHash : string;
  Data : bytes;
  pTx : Transaction
}.

(** Modelled from the spec: [codec.Encode] and [codec.Decode], at the type
    [[]pendingTransaction], are not part of tick.go.  The spec fixes only
    that the sequence is serialized once as a single journal value and that
    decoding reverses this exactly; the properties that depend on it take
    that as their assumption. *)
Variable codecEncode : list pendingTransaction -> result bytes.
Variable codecDecode : bytes -> result (list pendingTransaction).

(** A message descriptor ([types.Message]): the methods tick.go calls. *)
Record Message : Type := mkMessage {
  ID : MessageID;
  Encode : any -> result bytes;
  Decode : bytes -> result any
}.

(** Modelled from the spec: [txpool.TxPool] is not part of tick.go.  It is
    a multi-map from message type to the transactions submitted under it,
    in submission order, with append and lookup by type. *)
Definition New : gmap MessageID (list TxData) := ∅.

Definition ForID (pool : gmap MessageID (list TxData)) (id : MessageID)
  : list TxData :=
  default [] (pool !! id).

Definition AddTransaction (pool : gmap MessageID (list TxData))
    (id : MessageID) (v : any) (sig : Transaction)
  : gmap MessageID (list TxData) :=
  <[id := ForID pool id ++ [mkTxData v (HashHex sig) sig]]> pool.

(** The inner loop of [addPendingTransactionToPipe]: every transaction of
    one type is encoded and appended to [pending]. *)
Fixpoint encodeForType (tx : Message) (currList : list TxData)
    (pending : list pendingTransaction) : result (list pendingTransaction) :=
  match currList with
  | [] => Ok pending
  | txData :: rest =>
      match Encode tx (Msg txData) with
      | Ok buf =>
          let currItem :=
            mkPending (ID tx) (TxHash txData) buf (Tx txData) in
          encodeForType tx rest (pending ++ [currItem])
      | Err e => Err e
      | Panic => Panic
      end
  end.

(** The outer loop: the descriptors in the order of [txs]. *)
Fixpoint collectPending (txs : list Message)
    (pool : gmap MessageID (list TxData))
    (pending : list pendingTransaction) : result (list pendingTransaction) :=
  match txs with
  | [] => Ok pending
  | tx :: rest =>
      match encodeForType tx (ForID pool (ID tx)) pending with
      | Ok pending' => collectPending rest pool pending'
      | Err e => Err e
      | Panic => Panic
      end
  end.

(** [addPendingTransactionToPipe]: the pool is serialized into one journal
    value, which is queued under the journal key. *)
Definition addPendingTransactionToPipe (pipe : Pipe) (txs : list Message)
    (pool : gmap MessageID (list TxData)) : M Pipe :=
  let* pending := lift (collectPending txs pool []) in
  let* buf := lift (codecEncode pending) in
  wrapErr "failed to set pending transaction"
    (onStorage (pipeSet pipe storagePendingTransactionKey buf)).

(** [StartNextTick]: the journal and the increment of the start counter go
    into one pipeline. *)
Definition StartNextTick (txs : list Message)
    (pool : gmap MessageID (list TxData)) : M unit :=
  let* pipe := wrapErr "failed to start transaction"
                 (onStorage StartTransaction) in
  let* pipe := wrapErr "failed to add pending transaction to pipe"
                 (addPendingTransactionToPipe pipe txs pool) in
  let* pipe := wrapErr "failed to increment start tick key"
                 (onStorage (pipeIncr pipe storageStartTickKey)) in
  wrapErr "failed to end transaction" (onStorage (EndTransaction pipe)).

(** [idToTx]: the descriptors by ID, a later one replacing an earlier one. *)
Fixpoint indexByID (txs : list Message) (idToTx : gmap MessageID Message)
  : gmap MessageID Message :=
  match txs with
  | [] => idToTx
  | tx :: rest => indexByID rest (<[ID tx := tx]> idToTx)
  end.

(** The loop of [Recover] over the journal.  [idToTx[p.TypeID]] of an ID that
    is not in the map is the nil interface, and the call [tx.Decode] on it
    panics. *)
Fixpoint rebuildPool (idToTx : gmap MessageID Message)
    (pending : list pendingTransaction)
    (txPool : gmap MessageID (list TxData))
  : result (gmap MessageID (list TxData)) :=
  match pending with
  | [] => Ok txPool
  | p :: rest =>
      match idToTx !! TypeID p with
      | None => Panic
      | Some tx =>
          match Decode tx (Data p) with
          | Ok txData =>
              rebuildPool idToTx rest (AddTransaction txPool (ID tx) txData (pTx p))
          | Err e => Err e
          | Panic => Panic
          end
      end
  end.

(** [Recover]: the journal is read and decoded, and a fresh pool is filled
    from it. *)
Definition Recover (txs : list Message) : M (gmap MessageID (list TxData)) :=
  let* bz := wrapErr "" (onStorage (GetBytes storagePendingTransactionKey)) in
  let* pending := lift (codecDecode bz) in
  let idToTx := indexByID txs ∅ in
  lift (rebuildPool idToTx pending New).

End Journal.

Arguments TxData : clear implicits.
Arguments pendingTransaction : clear implicits.
Arguments Message : clear implicits.

(** ** Observations and the protocol *)

(** The same command buffer in an environment where no call fails. *)
Definition withoutFaults (m : EntityCommandBuffer) : EntityCommandBuffer :=
  mkECB (mkStorage (db (dbStorage m)) []) (mutationSet m) (pendingArchIDs m).

(** What [GetTickNumbers] reports when the backend answers. *)
Definition tickNumbers (m : EntityCommandBuffer) : result (N * N) :=
  fst (GetTickNumbers (withoutFaults m)).

(** The value a counter key stands for in a store: 0 when absent, nothing
    when the key holds a byte string. *)
Definition counterAt (d : gmap string value) (key : string) : option N :=
  match d !! key with
  | None => Some 0
  | Some (VUInt n) => Some n
  | Some (VBytes _) => None
  end.

(** The command a mutation is flushed as. *)
Definition mutationCommand (mu : mutation) : command :=
  match mu with
  | MutSet k v => CSet k v
  | MutDelete k => CDelete k
  end.

(** No tick is in flight: [start == end]. *)
Definition idle (m : EntityCommandBuffer) : Prop :=
  exists n, tickNumbers m = Ok (n, n).

(** A tick was started and not finalized: [start == end + 1]. *)
Definition inFlight (m : EntityCommandBuffer) : Prop :=
  exists n, tickNumbers m = Ok (n + 1, n).

(** The mutation set writes none of the three keys of the tick protocol. *)
Definition avoidsTickKeys (ms : list mutation) : Prop :=
  Forall (fun mu => isTickKey (mutationKey mu) = false) ms.

(** The invariant of the protocol: the counters can be read and differ by
    at most one, the end counter never being ahead. *)
Definition tickInvariant (m : EntityCommandBuffer) : Prop :=
  exists s e, tickNumbers m = Ok (s, e) /\ 0 <= e /\ e <= s /\ s <= e + 1.

Definition freshBuffer (fs : list (option error)) : EntityCommandBuffer :=
  mkECB (mkStorage ∅ fs) [] [].

Section Protocol.

Context {any Transaction : Type}.
Variable codecEncode : list (pendingTransaction Transaction) -> result bytes.

(** The states a serial caller can bring a fresh store to.  [StartNextTick]
    is only issued when no tick is in flight; [finalizeWhen] is what the
    caller checks before issuing [FinalizeTick].  Every call may succeed or
    fail; between calls the simulation records mutations of game-state keys
    and the environment may change its failure schedule. *)
Inductive reachable (finalizeWhen : EntityCommandBuffer -> Prop)
  : EntityCommandBuffer -> Prop :=
| reach_fresh fs : reachable finalizeWhen (freshBuffer fs)
| reach_start m (txs : list (Message any))
    (pool : gmap MessageID (list (TxData any Transaction))) :
    reachable finalizeWhen m ->
    idle m ->
    reachable finalizeWhen (snd (StartNextTick codecEncode txs pool m))
| reach_finalize m :
    reachable finalizeWhen m ->
    finalizeWhen m ->
    reachable finalizeWhen (snd (FinalizeTick m))
| reach_simulate m ms archIDs :
    reachable finalizeWhen m ->
    avoidsTickKeys ms ->
    reachable finalizeWhen
      (mkECB (dbStorage m) (mutationSet m ++ ms) (pendingArchIDs m ++ archIDs))
| reach_faults m fs :
    reachable finalizeWhen m ->
    reachable finalizeWhen
      (mkECB (mkStorage (db (dbStorage m)) fs) (mutationSet m) (pendingArchIDs m)).

(** What a pool shows of one transaction: its payload and its source. *)
Definition observe (d : TxData any Transaction) : any * Transaction :=
  (Msg d, Tx d).

(** Two pools are observably equal: under every message type, the same
    payloads with the same source transactions in the same order. *)
Definition observablyEqual (p q : gmap MessageID (list (TxData any Transaction)))
  : Prop :=
  forall id, observe <$> ForID p id = observe <$> ForID q id.

(** One journal record is the encoding of the pool entry [d] under the
    descriptor [tx]. *)
Definition journals (p : pendingTransaction Transaction)
    (e : Message any * TxData any Transaction) : Prop :=
  TypeID p = ID (fst e) /\ pTxHash p = TxHash (snd e) /\ pTx p = Tx (snd e)
  /\ Encode (fst e) (Msg (snd e)) = Ok (Data p).

(** The pool entries a journal holds, in journal order: for each descriptor
    of [txs] in turn, the transactions the pool has under its ID. *)
Definition journalled (txs : list (Message any))
    (pool : gmap MessageID (list (TxData any Transaction)))
  : list (Message any * TxData any Transaction) :=
  flat_map (fun tx => (fun d => (tx, d)) <$> ForID pool (ID tx)) txs.

End Protocol.

(** ** A concrete instance *)

(** Modelled from the spec: an instance of what tick.go takes from other
    packages.  Payloads are integers, a source transaction is a string and
    is its own hash, and the journal codec is a self-delimiting binary
    format whose decoder reverses its encoder.  It shows that the
    assumptions made on the codec and on the descriptors can be met, and it
    is what the examples run on. *)
Module Wire.

Import Byte.

Fixpoint putPos (p : positive) : bytes :=
  match p with
  | xH => [x00]
  | xO q => x01 :: putPos q
  | xI q => x02 :: putPos q
  end.

Fixpoint getPos (bz : bytes) : option (positive * bytes) :=
  match bz with
  | x00 :: rest => Some (xH, rest)
  | x01 :: rest =>
      match getPos rest with
      | Some (q, r) => Some (xO q, r)
      | None => None
      end
  | x02 :: rest =>
      match getPos rest with
      | Some (q, r) => Some (xI q, r)
      | None => None
      end
  | _ => None
  end.

Definition putZ (z : Z) : bytes :=
  match z with
  | Z0 => [x00]
  | Zpos p => x01 :: putPos p
  | Zneg p => x02 :: putPos p
  end.

Definition getZ (bz : bytes) : option (Z * bytes) :=
  match bz with
  | x00 :: rest => Some (Z0, rest)
  | x01 :: rest =>
      match getPos rest with
      | Some (p, r) => Some (Zpos p, r)
      | None => None
      end
  | x02 :: rest =>
      match getPos rest with
      | Some (p, r) => Some (Zneg p, r)
      | None => None
      end
  | _ => None
  end.

Fixpoint putBytes (l : bytes) : bytes :=
  match l with
  | [] => [x00]
  | b :: rest => x01 :: b :: putBytes rest
  end.

Fixpoint getBytes (bz : bytes) : option (bytes * bytes) :=
  match bz with
  | x00 :: rest => Some ([], rest)
  | x01 :: b :: rest =>
      match getBytes rest with
      | Some (l, r) => Some (b :: l, r)
      | None => None
      end
  | _ => None
  end.

Definition putString (s : string) : bytes :=
  putBytes (String.list_byte_of_string s).

Definition getString (bz : bytes) : option (string * bytes) :=
  match getBytes bz with
  | Some (l, r) => Some (String.string_of_list_byte l, r)
  | None => None
  end.

Definition putPending (p : pendingTransaction string) : bytes :=
  putZ (TypeID p) ++ putString (pTxHash p) ++ putBytes (Data p)
  ++ putString (pTx p).

Definition getPending (bz : bytes)
  : option (pendingTransaction string * bytes) :=
  match getZ bz with
  | Some (id, r1) =>
      match getString r1 with
      | Some (h, r2) =>
          match getBytes r2 with
          | Some (d, r3) =>
              match getString r3 with
              | Some (t, r4) => Some (mkPending id h d t, r4)
              | None => None
              end
          | None => None
          end
      | None => None
      end
  | None => None
  end.

Fixpoint putRecords (l : list (pendingTransaction string)) : bytes :=
  match l with
  | [] => []
  | p :: rest => putPending p ++ putRecords rest
  end.

Fixpoint getRecords (n : nat) (bz : bytes)
  : option (list (pendingTransaction string) * bytes) :=
  match n with
  | O => Some ([], bz)
  | S n' =>
      match getPending bz with
      | Some (p, r) =>
          match getRecords n' r with
          | Some (l, r') => Some (p :: l, r')
          | None => None
          end
      | None => None
      end
  end.

(** Modelled from the spec: [codec.Encode] and [codec.Decode] are not part
    of tick.go.  The spec fixes that the full ordered sequence of records
    is serialized once as a single journal value, that decoding reverses
    this exactly, and that a value that does not decode is an error.  The
    journal value here is the number of records followed by the records,
    field by field; [decode] reads it back and refuses anything else. *)
Definition encode (l : list (pendingTransaction string)) : result bytes :=
  Ok (putPos (Pos.of_succ_nat (length l)) ++ putRecords l).

Definition decode (bz : bytes) : result (list (pendingTransaction string)) :=
  match getPos bz with
  | Some (c, r) =>
      match getRecords (Nat.pred (Pos.to_nat c)) r with
      | Some (l, []) => Ok l
      | _ => Err (codecError "malformed journal")
      end
  | None => Err (codecError "malformed journal")
  end.

(** A descriptor whose payload is an integer. *)
Definition intMessage (id : MessageID) : Message Z :=
  mkMessage id
    (fun v => Ok (putZ v))
    (fun bz =>
       match getZ bz with
       | Some (v, []) => Ok v
       | _ => Err (codecError "malformed payload")
       end).

Definition hashHex (t : string) : string := t.

Definition addTransaction :=
  AddTransaction (any := Z) hashHex.

End Wire.

(** A run of the protocol on the concrete instance. *)
Module Scenario.

Import Wire.

(** Two message types, and a pool with two transactions of the first and
    one of the second. *)
Definition descriptors : list (Message Z) := [intMessage 1; intMessage 2].

Definition pool : gmap MessageID (list (TxData Z string)) :=
  addTransaction
    (addTransaction (addTransaction New 1%Z 5%Z "alice") 2%Z 7%Z "bob")
    1%Z (-3)%Z "carol".

(** A tick started on a fresh store, and not finalized. *)
Definition started : EntityCommandBuffer :=
  snd (StartNextTick encode descriptors pool (freshBuffer [])).

(** The same tick, started by a run that knows the first message type only. *)
Definition startedNarrow : EntityCommandBuffer :=
  snd (StartNextTick encode [intMessage 1] pool (freshBuffer [])).

(** The same tick, started with a descriptor list that names the first
    message type twice. *)
Definition repeated : list (Message Z) :=
  [intMessage 1; intMessage 2; intMessage 1].

Definition startedRepeated : EntityCommandBuffer :=
  snd (StartNextTick encode repeated pool (freshBuffer [])).

(** The simulation of the started tick has recorded two mutations; [fs] is
    what the environment will do to the calls that follow. *)
Definition simulated (fs : list (option error)) : EntityCommandBuffer :=
  mkECB (mkStorage (db (dbStorage started)) fs)
    [MutSet "ECB:COMPONENT-VALUE:1:7" [Byte.x2a];
     MutDelete "ECB:COMPONENT-VALUE:2:7"]
    [3%Z].

Definition finalized : EntityCommandBuffer :=
  snd (FinalizeTick (simulated [])).

(** The commit of a pipeline fails: the fourth call of [StartNextTick], the
    fifth of [FinalizeTick] on [simulated]. *)
Definition startCommitFails : list (option error) :=
  [None; None; None; Some (backendError "connection reset")].

Definition finalizeCommitFails : list (option error) :=
  [None; None; None; None; Some (backendError "connection reset")].

(** Everything up to the commit succeeds and [DiscardPending] fails. *)
Definition discardFails : list (option error) :=
  [None; None; None; None; None; Some (backendError "discard failed")].

End Scenario.

(** ** The journal as one pass over its entries *)

Section Entries.

Context {any Transaction : Type}.

(** The two loops of [addPendingTransactionToPipe] seen as one pass over
    the (descriptor, pool entry) pairs in journal order: each payload is
    encoded in turn and the first failure ends the pass. *)
Fixpoint encodeEntries
    (entries : list (Message any * TxData any Transaction))
    (pending : list (pendingTransaction Transaction))
  : result (list (pendingTransaction Transaction)) :=
  match entries with
  | [] => Ok pending
  | (tx, txData) :: rest =>
      match Encode tx (Msg txData) with
      | Ok buf =>
          encodeEntries rest
            (pending ++ [mkPending (ID tx) (TxHash txData) buf (Tx txData)])
      | Err e => Err e
      | Panic => Panic
      end
  end.

(** What [Recover] makes of one journal record [p] under the message type
    [id], given the descriptors by ID: the payload decoded by the
    descriptor found under [id], the source transaction of the record, and
    the hash the pool computes from it. *)
Definition recovers (HashHex : Transaction -> string)
    (idToTx : gmap MessageID (Message any)) (id : MessageID)
    (d : TxData any Transaction) (p : pendingTransaction Transaction) : Prop :=
  exists tx,
    idToTx !! id = Some tx /\ ID tx = id
    /\ Decode tx (Data p) = Ok (Msg d)
    /\ Tx d = pTx p /\ TxHash d = HashHex (pTx p).

(** A pool as [AddTransaction] builds it: no message type with an empty
    list, and every hash the one computed from the source transaction. *)
Definition builtByAdd (HashHex : Transaction -> string)
    (pool : gmap MessageID (list (TxData any Transaction))) : Prop :=
  forall id l, pool !! id = Some l ->
    l <> [] /\ Forall (fun d => TxHash d = HashHex (Tx d)) l.

End Entries.

(** ** The pre-block hook of the EVM base shard (evm/app/app.go) *)

(** [sdk.ResponsePreBlock]. *)
Record ResponsePreBlock : Type := mkResponsePreBlock {
  ConsensusParamsChanged : bool
}.

(** What [preBlocker] returns: a response pointer (possibly nil) with an
    error (possibly nil), unless it panics. *)
Inductive preBlockOutcome : Type :=
| Returned (res : option ResponsePreBlock) (err : option error)
| Panicked.

Section PreBlocker.

(** The chain state behind [sdk.Context], which the handlers write; the two
    kinds of message the shard sequencer hands over; the shard name of a
    registration; and [%q] of [fmt] on a string. *)
Context {State RegisterMsg TxMsg : Type}.
Variable ShardName : RegisterMsg -> string.
Variable quote : string -> string.

(** A message service handler: a function of the context and the message
    that returns a result and an error; [preBlocker] discards the result. *)
Definition MsgHandler : Type :=
  State -> RegisterMsg + TxMsg -> option error * State.

(** [app.MsgServiceRouter().Handler(msg)]: nil when no handler is
    registered for the message. *)
Variable Handler : RegisterMsg + TxMsg -> option MsgHandler.

(** The first loop: every registration is routed and handled in turn, and
    the first error ends the hook.  Calling a nil handler panics. *)
Fixpoint registerShards (shardRegisterMsgs : list RegisterMsg) (ctx : State)
  : result unit * State :=
  match shardRegisterMsgs with
  | [] => (Ok tt, ctx)
  | shardRegisterMsg :: rest =>
      match Handler (inl shardRegisterMsg) with
      | None => (Panic, ctx)
      | Some handler =>
          match handler ctx (inl shardRegisterMsg) with
          | (None, ctx') => registerShards rest ctx'
          | (Some err, ctx') =>
              (Err (wrapped
                      ("failed to register new shard with namespace "
                       ++ quote (ShardName shardRegisterMsg))%string err),
               ctx')
          end
      end
  end.

(** The second loop: one handler for all the transaction messages. *)
Fixpoint sequenceTxs (handler : option MsgHandler)
    (shardTxDataMsgs : list TxMsg) (ctx : State) : result unit * State :=
  match shardTxDataMsgs with
  | [] => (Ok tt, ctx)
  | tx :: rest =>
      match handler with
      | None => (Panic, ctx)
      | Some h =>
          match h ctx (inr tx) with
          | (None, ctx') => sequenceTxs handler rest ctx'
          | (Some err, ctx') =>
              (Err (wrapped
                      "failed to process game shard tx data submission" err),
               ctx')
          end
      end
  end.

(** [preBlocker], on the messages [FlushMessages] returned.  The log lines
    are left out. *)
Definition preBlocker (shardTxDataMsgs : list TxMsg)
    (shardRegisterMsgs : list RegisterMsg) (ctx : State)
  : preBlockOutcome * State :=
  match registerShards shardRegisterMsgs ctx with
  | (Err err, ctx1) => (Returned None (Some err), ctx1)
  | (Panic, ctx1) => (Panicked, ctx1)
  | (Ok _, ctx1) =>
      let resPreBlock := mkResponsePreBlock false in
      match shardTxDataMsgs with
      | [] => (Returned (Some resPreBlock) None, ctx1)
      | first :: _ =>
          let handler := Handler (inr first) in
          match sequenceTxs handler shardTxDataMsgs ctx1 with
          | (Ok _, ctx2) => (Returned (Some resPreBlock) None, ctx2)
          | (Err err, ctx2) => (Returned (Some resPreBlock) (Some err), ctx2)
          | (Panic, ctx2) => (Panicked, ctx2)
          end
      end
  end.

(** The state after the handler [h] has handled the messages in turn. *)
Definition handled (h : MsgHandler) (msgs : list (RegisterMsg + TxMsg))
    (ctx : State) : State :=
  foldl (fun c msg => snd (h c msg)) ctx msgs.

End PreBlocker.

Section StoreKeys.

(** [*storetypes.KVStoreKey] with its [Name], and the other implementations
    of [storetypes.StoreKey]. *)
Context {KVStoreKey OtherStoreKey : Type}.
Variable Name : KVStoreKey -> string.

(** The loop of [kvStoreKeys] over [app.GetStoreKeys()]: the keys that are
    KV store keys, by name. *)
Fixpoint collectKVStoreKeys (storeKeys : list (KVStoreKey + OtherStoreKey))
    (keys : gmap string KVStoreKey) : gmap string KVStoreKey :=
  match storeKeys with
  | [] => keys
  | inl kv :: rest => collectKVStoreKeys rest (<[Name kv := kv]> keys)
  | inr _ :: rest => collectKVStoreKeys rest keys
  end.

Definition kvStoreKeys (storeKeys : list (KVStoreKey + OtherStoreKey))
  : gmap string KVStoreKey :=
  collectKVStoreKeys storeKeys ∅.

(** The KV store keys of a list of store keys, in order. *)
Definition kvKeysOf (storeKeys : list (KVStoreKey + OtherStoreKey))
  : list KVStoreKey :=
  omap (fun k => match k with inl kv => Some kv | inr _ => None end) storeKeys.

End StoreKeys.

(** The state after every registration has been handled by the handler the
    router gives for it. *)
Definition registered {State RegisterMsg TxMsg : Type}
    (Handler : RegisterMsg + TxMsg -> option (@MsgHandler State RegisterMsg TxMsg))
    (shardRegisterMsgs : list RegisterMsg) (ctx : State) : State :=
  foldl (fun c r =>
           match Handler (inl r) with
           | Some h => snd (h c (inl r))
           | None => c
           end) ctx shardRegisterMsgs.

(** A run of the hook: the state is the list of the shards registered and
    of the transactions sequenced so far, latest first; a registration is a
    shard name, the empty name being refused; a transaction is a number, 0
    being refused. *)
Module HookScenario.

Definition handleRegister : @MsgHandler (list string) string N :=
  fun ctx msg =>
    match msg with
    | inl "" => (Some (backendError "empty namespace"), ctx)
    | inl name => (None, ("register " ++ name)%string :: ctx)
    | inr _ => (Some (backendError "not a registration"), ctx)
    end.

Definition handleTx : @MsgHandler (list string) string N :=
  fun ctx msg =>
    match msg with
    | inr 0 => (Some (backendError "empty transaction"), ctx)
    | inr _ => (None, "tx"%string :: ctx)
    | inl _ => (Some (backendError "not a transaction"), ctx)
    end.

Definition router (msg : string + N)
  : option (@MsgHandler (list string) string N) :=
  match msg with
  | inl _ => Some handleRegister
  | inr _ => Some handleTx
  end.

Definition shardName (msg : string) : string := msg.

(** Go's [%q] on names without characters to escape. *)
Definition quoted (s : string) : string :=
  String (Ascii.ascii_of_nat 34)
    (s ++ String (Ascii.ascii_of_nat 34) EmptyString)%string.

Definition runHook := preBlocker shardName quoted router.

End HookScenario.

(** Further runs of the tick protocol on the concrete instance. *)
Module MoreScenario.

Import Wire Scenario.

(** A descriptor that refuses to encode a negative payload. *)
Definition strictMessage (id : MessageID) : Message Z :=
  mkMessage id
    (fun v => if (v <? 0)%Z then Err (codecError "negative payload")
              else Ok (putZ v))
    (Decode (intMessage id)).

Definition strictDescriptors : list (Message Z) :=
  [strictMessage 1; intMessage 2].

(** A tick started on the empty pool. *)
Definition startedEmpty : EntityCommandBuffer :=
  snd (StartNextTick encode descriptors New (freshBuffer [])).

(** The journal of [started], as stored and as decoded, and the pool
    [Recover] makes of it. *)
Definition startedRecords : list (pendingTransaction string) :=
  [mkPending 1%Z "alice" (putZ 5) "alice";
   mkPending 1%Z "carol" (putZ (-3)) "carol";
   mkPending 2%Z "bob" (putZ 7) "bob"].

Definition startedJournal : bytes :=
  match encode startedRecords with
  | Ok bz => bz
  | _ => []
  end.

Definition recoveredPool : gmap MessageID (list (TxData Z string)) :=
  match fst (Recover hashHex decode descriptors (withoutFaults started)) with
  | Ok recovered => recovered
  | _ => New
  end.

(** The backend times out on the first call, or on the second. *)
Definition timeout : error := backendError "i/o timeout".

Definition firstCallFails : EntityCommandBuffer :=
  mkECB (mkStorage (db (dbStorage started)) [Some timeout]) [] [].

Definition secondCallFails : EntityCommandBuffer :=
  mkECB (mkStorage (db (dbStorage started)) [None; Some timeout]) [] [].

(** A router that has a handler for the transaction message 1 only. *)
Definition narrowRouter (msg : string + N)
  : option (@MsgHandler (list string) string N) :=
  match msg with
  | inl _ => Some HookScenario.handleRegister
  | inr 1 => Some HookScenario.handleTx
  | inr _ => None
  end.

End MoreScenario.

(** * Properties *)

(** ** The backend *)

Local Arguments applyCommands : simpl never.

Ltac break_match :=
  match goal with
  | |- context [match ?x with _ => _ end] => destruct x eqn:?
  | H : context [match ?x with _ => _ end] |- _ => destruct x eqn:?
  end.

Ltac break_all := repeat (break_match; simplify_eq; cbn in * ).

Lemma applyCommands_cons c cs d :
  applyCommands (c :: cs) d =
  match applyCommand c d with
  | Some d' => applyCommands cs d'
  | None => None
  end.
Proof. reflexivity. Qed.

Lemma applyCommands_single c d : applyCommands [c] d = applyCommand c d.
Proof. rewrite applyCommands_cons. by destruct (applyCommand c d). Qed.

Lemma applyCommands_app cs1 cs2 d :
  applyCommands (cs1 ++ cs2) d =
  match applyCommands cs1 d with
  | Some d' => applyCommands cs2 d'
  | None => None
  end.
Proof.
  revert d. induction cs1 as [|c cs1 IH]; intros d; [done|].
  cbn [app]. unfold applyCommands; fold applyCommands.
  destruct (applyCommand c d); [apply IH | done].
Qed.

Lemma isTickKey_false k :
  isTickKey k = false ->
  k <> storageStartTickKey /\ k <> storageEndTickKey
  /\ k <> storagePendingTransactionKey.
Proof.
  unfold isTickKey. intros H.
  apply orb_false_iff in H as [H H3]. apply orb_false_iff in H as [H1 H2].
  apply bool_decide_eq_false in H1, H2, H3. done.
Qed.

(** Flushing mutations of game-state keys cannot fail and leaves the three
    keys of the tick protocol as they were. *)
Lemma applyCommands_mutations ms d :
  avoidsTickKeys ms ->
  exists d', applyCommands (mutationCommand <$> ms) d = Some d'
    /\ forall k, isTickKey k = true -> d' !! k = d !! k.
Proof.
  intros Hms. revert d. induction Hms as [|mu ms Hmu _ IH]; intros d.
  - by exists d.
  - cbn [fmap list_fmap]. unfold applyCommands; fold applyCommands.
    destruct mu as [k v|k]; cbn [mutationCommand applyCommand].
    + destruct (IH (<[k := VBytes v]> d)) as (d' & -> & Hd').
      exists d'. split; [done|]. intros k' Hk'. rewrite Hd' by done.
      apply lookup_insert_ne. cbn in Hmu. congruence.
    + destruct (IH (delete k d)) as (d' & -> & Hd').
      exists d'. split; [done|]. intros k' Hk'. rewrite Hd' by done.
      apply lookup_delete_ne. cbn in Hmu. congruence.
Qed.

(** An increment adds exactly one to the counter and writes no other key. *)
Lemma applyCommand_incr k d d' :
  applyCommand (CIncr k) d = Some d' ->
  exists n, counterAt d k = Some n /\ counterAt d' k = Some (n + 1)
    /\ n + 1 < uint64Limit
    /\ forall k', k' <> k -> d' !! k' = d !! k'.
Proof.
  unfold applyCommand, counterAt. intros H.
  destruct (d !! k) as [[n|b]|] eqn:Hk; [| done |].
  - case_decide; [|done]. simplify_eq. exists n.
    rewrite lookup_insert_eq. repeat split; [done|].
    intros k' Hk'. by apply lookup_insert_ne.
  - simplify_eq. exists 0. rewrite lookup_insert_eq. repeat split.
    intros k' Hk'. by apply lookup_insert_ne.
Qed.

(** ** Reading the counters *)

Lemma readTick_withoutFaults key m :
  readTick key (withoutFaults m) =
  (match db (dbStorage m) !! key with
   | None => Ok 0
   | Some (VUInt n) => Ok n
   | Some (VBytes _) =>
       Err (wrapped "" (backendError "value is not an integer"))
   end, withoutFaults m).
Proof.
  destruct m as [[d fs] ms pa].
  unfold readTick, onStorage, GetUInt64, nextFault, withoutFaults. cbn.
  by destruct (d !! key) as [[n|b]|].
Qed.

Lemma tickNumbers_db m m' :
  db (dbStorage m') = db (dbStorage m) -> tickNumbers m' = tickNumbers m.
Proof.
  intros Hd. unfold tickNumbers, GetTickNumbers, bind, ret.
  rewrite !readTick_withoutFaults, Hd.
  destruct (db (dbStorage m) !! storageStartTickKey) as [[n1|b1]|];
    rewrite ?readTick_withoutFaults, ?Hd;
    by destruct (db (dbStorage m) !! storageEndTickKey) as [[n2|b2]|].
Qed.

Lemma tickNumbers_Ok m s e :
  tickNumbers m = Ok (s, e) <->
  counterAt (db (dbStorage m)) storageStartTickKey = Some s
  /\ counterAt (db (dbStorage m)) storageEndTickKey = Some e.
Proof.
  unfold tickNumbers, GetTickNumbers, bind, ret, counterAt.
  rewrite readTick_withoutFaults.
  destruct (db (dbStorage m) !! storageStartTickKey) as [[n1|b1]|];
    rewrite ?readTick_withoutFaults;
    destruct (db (dbStorage m) !! storageEndTickKey) as [[n2|b2]|];
    cbn; (split; [intros ?|intros [? ?]]; by simplify_eq).
Qed.

(** ** What the two phases do to the store *)

Lemma queueMutations_inv ms pipe m r m' :
  queueMutations ms pipe m = (r, m') ->
  db (dbStorage m') = db (dbStorage m)
  /\ mutationSet m' = mutationSet m
  /\ pendingArchIDs m' = pendingArchIDs m
  /\ match r with
     | Ok pipe' => queued pipe' = queued pipe ++ (mutationCommand <$> ms)
     | Err _ => True
     | Panic => False
     end.
Proof.
  revert pipe m. induction ms as [|mu ms IH]; intros pipe m.
  - unfold queueMutations, ret. intros [= <- <-]. by rewrite app_nil_r.
  - destruct m as [[d fs] ms0 pa].
    destruct mu as [k v|k]; cbn [queueMutations];
      unfold bind, onStorage, pipeSet, pipeDelete, enqueue, nextFault;
      cbn; destruct fs as [|[e|] fs]; cbn;
      try (intros [= <- <-]; done);
      intros H; apply IH in H as (-> & -> & -> & H);
      (repeat split; [done..|]); destruct r; try done;
      rewrite H; cbn; by rewrite <- app_assoc.
Qed.

(** The outcomes of [FinalizeTick]: a success commits the mutation set and
    the increment of the end counter and clears the in-memory state; a
    failure of [DiscardPending] comes after that commit; every other error
    comes before it. *)
Lemma FinalizeTick_inv m r m' :
  FinalizeTick m = (r, m') ->
  let committed :=
    applyCommands ((mutationCommand <$> mutationSet m)
                   ++ [CIncr storageEndTickKey]) (db (dbStorage m))
    = Some (db (dbStorage m')) in
  match r with
  | Ok _ => committed /\ mutationSet m' = [] /\ pendingArchIDs m' = []
  | Err e =>
      (exists e0, e = wrapped "failed to discard pending transaction" e0
         /\ committed /\ pendingArchIDs m' = []
         /\ mutationSet m' = mutationSet m)
      \/ ((forall e0, e <> wrapped "failed to discard pending transaction" e0)
          /\ db (dbStorage m') = db (dbStorage m)
          /\ mutationSet m' = mutationSet m
          /\ pendingArchIDs m' = pendingArchIDs m)
  | Panic => False
  end.
Proof.
  destruct m as [[d fs] ms pa].
  unfold FinalizeTick, makePipeOfRedisCommands.
  unfold bind at 1 2 3 4. unfold wrapErr at 1 2 3 4.
  unfold bind at 1.
  unfold onStorage at 1. unfold StartTransaction, nextFault.
  cbn [dbStorage mutationSet pendingArchIDs db faults].
  destruct fs as [|[e|] fs]; try (intros [= <- <-]; right; done).
  all: match goal with
       | |- context [queueMutations ?a ?b ?c] =>
           destruct (queueMutations a b c) as [r1 m1] eqn:H1
       end;
    apply queueMutations_inv in H1 as (Hd1 & Hm1 & Ha1 & Hr1);
    destruct m1 as [[d1 fs1] ms1 pa1]; cbn in Hd1, Hm1, Ha1, Hr1;
    subst d1 ms1 pa1;
    (destruct r1 as [p1|e1|]; [| |done]);
    try (intros [= <- <-]; right; done);
    unfold onStorage, pipeIncr, enqueue, EndTransaction, clearPendingArchIDs,
      DiscardPending, nextFault;
    cbn [dbStorage mutationSet pendingArchIDs db faults queued];
    rewrite Hr1.
  all: repeat first
    [ progress cbn
    | match goal with
      | |- context [match ?l with [] => _ | _ :: _ => _ end] =>
          is_var l; destruct l as [|[?|] ?]
      | |- context [applyCommands ?c ?d0] =>
          destruct (applyCommands c d0) eqn:?
      end ].
  all: intros [= <- <-]; first [done | right; done | left; eauto 10].
Qed.

(** The flush of the mutation set and the increment, applied to a store. *)
Lemma finalize_commands_inv ms d d' :
  avoidsTickKeys ms ->
  applyCommands ((mutationCommand <$> ms) ++ [CIncr storageEndTickKey]) d
  = Some d' ->
  d' !! storageStartTickKey = d !! storageStartTickKey
  /\ (exists n, counterAt d storageEndTickKey = Some n
         /\ counterAt d' storageEndTickKey = Some (n + 1))
  /\ d' !! storagePendingTransactionKey = d !! storagePendingTransactionKey.
Proof.
  intros Hms. rewrite applyCommands_app.
  destruct (applyCommands_mutations ms d Hms) as (d1 & -> & Hd1).
  rewrite applyCommands_single. intros Hi.
  apply applyCommand_incr in Hi as (n & Hn & Hn' & _ & Hk).
  split; [|split].
  - rewrite Hk by done. by rewrite Hd1.
  - exists n. split; [|done]. revert Hn. unfold counterAt. by rewrite Hd1.
  - rewrite Hk by done. by rewrite Hd1.
Qed.

Section TickProperties.

Context {any Transaction : Type}.
Variable HashHex : Transaction -> string.
Variable codecEncode : list (pendingTransaction Transaction) -> result bytes.
Variable codecDecode : bytes -> result (list (pendingTransaction Transaction)).

Implicit Types (txs : list (Message any))
  (pool : gmap MessageID (list (TxData any Transaction)))
  (currList : list (TxData any Transaction))
  (acc pending : list (pendingTransaction Transaction))
  (m : EntityCommandBuffer).

(** The outcomes of [StartNextTick]: a success commits the journal value and
    the increment of the start counter; every failure leaves the store as
    it was.  The in-memory state is never touched. *)
Lemma StartNextTick_inv txs pool m r m' :
  StartNextTick codecEncode txs pool m = (r, m') ->
  mutationSet m' = mutationSet m /\ pendingArchIDs m' = pendingArchIDs m
  /\ match r with
     | Ok _ =>
         exists pending buf,
           collectPending txs pool [] = Ok pending
           /\ codecEncode pending = Ok buf
           /\ applyCommands [CSet storagePendingTransactionKey buf;
                             CIncr storageStartTickKey] (db (dbStorage m))
              = Some (db (dbStorage m'))
     | _ => db (dbStorage m') = db (dbStorage m)
     end.
Proof.
  destruct m as [[d fs] ms pa].
  unfold StartNextTick, addPendingTransactionToPipe, bind, wrapErr, onStorage,
    lift, StartTransaction, pipeSet, pipeIncr, enqueue, EndTransaction,
    nextFault.
  cbn. intros H. break_all; eauto 10.
Qed.

(** The journal write and the increment, applied to a store. *)
Lemma start_commands_inv buf d d' :
  applyCommands [CSet storagePendingTransactionKey buf;
                 CIncr storageStartTickKey] d = Some d' ->
  d' !! storagePendingTransactionKey = Some (VBytes buf)
  /\ (exists n, counterAt d storageStartTickKey = Some n
        /\ counterAt d' storageStartTickKey = Some (n + 1))
  /\ forall k, k <> storageStartTickKey -> k <> storagePendingTransactionKey ->
       d' !! k = d !! k.
Proof.
  rewrite applyCommands_cons. cbn [applyCommand].
  rewrite applyCommands_single. intros Hi.
  apply applyCommand_incr in Hi as (n & Hn & Hn' & _ & Hk).
  split; [|split].
  - rewrite Hk by done. apply lookup_insert_eq.
  - exists n. split; [|done]. revert Hn. unfold counterAt.
    by rewrite lookup_insert_ne.
  - intros k Hk1 Hk2. rewrite Hk by done. by apply lookup_insert_ne.
Qed.

(** C3: whenever [StartNextTick] returns an error, whatever its cause (an
    encode error, or a backend failure when starting, queuing into or
    committing the pipeline), the durable store is as before the call: the
    start counter, the end counter and the journal key hold their prior
    values. *)
Theorem StartNextTick_error_leaves_store txs pool m e m' :
  StartNextTick codecEncode txs pool m = (Err e, m') ->
  db (dbStorage m') = db (dbStorage m)
  /\ tickNumbers m' = tickNumbers m
  /\ db (dbStorage m') !! storagePendingTransactionKey
     = db (dbStorage m) !! storagePendingTransactionKey.
Proof.
  intros H. apply StartNextTick_inv in H as (_ & _ & Hd).
  split; [done|]. split; [by apply tickNumbers_db | by rewrite Hd].
Qed.

(** C8: after a successful [StartNextTick] the end counter is unchanged and
    the start counter is exactly one greater than before; apart from the
    start counter and the journal key no key of the store is written, so no
    game-state key is.  The in-memory state is untouched as well. *)
Theorem StartNextTick_bumps_start_only txs pool m m' :
  StartNextTick codecEncode txs pool m = (Ok tt, m') ->
  (exists s, counterAt (db (dbStorage m)) storageStartTickKey = Some s
     /\ counterAt (db (dbStorage m')) storageStartTickKey = Some (s + 1))
  /\ db (dbStorage m') !! storageEndTickKey
     = db (dbStorage m) !! storageEndTickKey
  /\ (forall s e, tickNumbers m = Ok (s, e) -> tickNumbers m' = Ok (s + 1, e))
  /\ (forall k, k <> storageStartTickKey ->
         k <> storagePendingTransactionKey ->
         db (dbStorage m') !! k = db (dbStorage m) !! k)
  /\ mutationSet m' = mutationSet m
  /\ pendingArchIDs m' = pendingArchIDs m.
Proof.
  intros H. apply StartNextTick_inv in H as (Hms & Hpa & Hr).
  destruct Hr as (pending & buf & _ & _ & Hc).
  apply start_commands_inv in Hc as (_ & (n & Hn & Hn') & Hk).
  split; [by exists n|]. split; [by apply Hk|].
  repeat split; [|done..].
  intros s e [Hs He]%tickNumbers_Ok.
  apply tickNumbers_Ok. split; [congruence|].
  unfold counterAt. by rewrite Hk.
Qed.

(** C9: after a successful [FinalizeTick], whose mutation set writes only
    game-state keys, the start counter is unchanged and the end counter is
    exactly one greater than before, so that it equals the start counter
    when a tick was in flight; the in-memory mutation set and the cached
    [pendingArchIDs] are cleared. *)
Theorem FinalizeTick_bumps_end_only m m' :
  avoidsTickKeys (mutationSet m) ->
  FinalizeTick m = (Ok tt, m') ->
  db (dbStorage m') !! storageStartTickKey
  = db (dbStorage m) !! storageStartTickKey
  /\ (exists e, counterAt (db (dbStorage m)) storageEndTickKey = Some e
        /\ counterAt (db (dbStorage m')) storageEndTickKey = Some (e + 1))
  /\ (forall s e, tickNumbers m = Ok (s, e) ->
        tickNumbers m' = Ok (s, e + 1)
        /\ (s = e + 1 -> tickNumbers m' = Ok (s, s)))
  /\ mutationSet m' = []
  /\ pendingArchIDs m' = [].
Proof.
  intros Hms H. apply FinalizeTick_inv in H as (Hc & Hm' & Hpa).
  apply finalize_commands_inv in Hc as (Hs' & (n & Hn & Hn') & _); [|done].
  split; [done|]. split; [by exists n|]. repeat split; [| |done..].
  - apply tickNumbers_Ok in H as [Hs He]. apply tickNumbers_Ok.
    unfold counterAt at 1. rewrite Hs'. split; [done|congruence].
  - apply tickNumbers_Ok in H as [Hs He]. intros ->. apply tickNumbers_Ok.
    unfold counterAt at 1. rewrite Hs'. split; [done|congruence].
Qed.

(** C4, amended: whenever [FinalizeTick] returns an error other than the
    failure of [DiscardPending] (that is, an error from building the
    pipeline, queuing the increment of the end counter, or committing), the
    store and so both counters are unchanged, and neither the mutation set
    nor [pendingArchIDs] is cleared. *)
Theorem FinalizeTick_error_before_commit m e m' :
  FinalizeTick m = (Err e, m') ->
  (forall e0, e <> wrapped "failed to discard pending transaction" e0) ->
  db (dbStorage m') = db (dbStorage m)
  /\ tickNumbers m' = tickNumbers m
  /\ mutationSet m' = mutationSet m
  /\ pendingArchIDs m' = pendingArchIDs m.
Proof.
  intros H He.
  apply FinalizeTick_inv in H as [(e0 & -> & _)|(_ & Hd & Hm & Hp)].
  - by destruct (He e0).
  - repeat split; [done| |done..]. by apply tickNumbers_db.
Qed.

(** Both phases keep the mutation set within the game-state keys. *)
Lemma reachable_avoidsTickKeys finalizeWhen m :
  reachable (any := any) codecEncode finalizeWhen m ->
  avoidsTickKeys (mutationSet m).
Proof.
  induction 1 as [fs|m txs pool _ IH _|m _ IH _|m ms archIDs _ IH Hms|m fs _ IH].
  - constructor.
  - destruct (StartNextTick codecEncode txs pool m) as [r m'] eqn:E.
    cbn [snd]. apply StartNextTick_inv in E as (-> & _). done.
  - destruct (FinalizeTick m) as [r m'] eqn:E.
    cbn [snd]. apply FinalizeTick_inv in E.
    destruct r as [u|e|]; [| |done].
    + destruct E as (_ & -> & _). constructor.
    + by destruct E as [(e0 & _ & _ & _ & ->)|(_ & _ & -> & _)].
  - cbn. by apply Forall_app.
  - done.
Qed.

(** C2, amended: in every state reachable from a fresh store by a serial
    sequence of successful or failed calls, [StartNextTick] being issued
    only when [start == end] and [FinalizeTick] only when
    [start == end + 1], the counters satisfy
    [0 <= end <= start <= end + 1]. *)
Theorem counter_invariant m :
  reachable (any := any) codecEncode inFlight m -> tickInvariant m.
Proof.
  intros Hreach.
  pose proof (reachable_avoidsTickKeys _ _ Hreach) as Hms. revert Hms.
  induction Hreach
    as [fs|m txs pool Hr IH Hidle|m Hr IH Hfl|m ms archIDs Hr IH Hms'|m fs Hr IH];
    intros Hms.
  - exists 0, 0. split; [done|]. lia.
  - pose proof (reachable_avoidsTickKeys _ _ Hr) as Hm.
    destruct (StartNextTick codecEncode txs pool m) as [r m'] eqn:E.
    cbn [snd] in *. destruct r as [[]|e|].
    + destruct Hidle as [n Hn].
      destruct (StartNextTick_bumps_start_only _ _ _ _ E) as (_ & _ & Ht & _).
      exists (n + 1), n. split; [by apply Ht|]. lia.
    + apply StartNextTick_inv in E as (_ & _ & Hd).
      unfold tickInvariant. rewrite (tickNumbers_db _ _ Hd). by apply IH.
    + apply StartNextTick_inv in E as (_ & _ & Hd).
      unfold tickInvariant. rewrite (tickNumbers_db _ _ Hd). by apply IH.
  - pose proof (reachable_avoidsTickKeys _ _ Hr) as Hm.
    destruct Hfl as [n Hn].
    destruct (FinalizeTick m) as [r m'] eqn:E.
    cbn [snd] in *. destruct r as [[]|e|].
    + destruct (FinalizeTick_bumps_end_only _ _ Hm E) as (_ & _ & Ht & _).
      exists (n + 1), (n + 1). split; [by apply Ht|]. lia.
    + apply FinalizeTick_inv in E
        as [(e0 & _ & Hc & _)|(_ & Hd & _)].
      * apply finalize_commands_inv in Hc as (Hs' & (k & Hk & Hk') & _);
          [|done].
        apply tickNumbers_Ok in Hn as [Hs He].
        exists (n + 1), (n + 1). split; [|lia].
        apply tickNumbers_Ok. unfold counterAt at 1. rewrite Hs'.
        split; [done|congruence].
      * unfold tickInvariant. rewrite (tickNumbers_db _ _ Hd). by apply IH.
    + by apply FinalizeTick_inv in E.
  - pose proof (reachable_avoidsTickKeys _ _ Hr) as Hm.
    unfold tickInvariant.
    rewrite (tickNumbers_db m) by done. by apply IH.
  - pose proof (reachable_avoidsTickKeys _ _ Hr) as Hm.
    unfold tickInvariant.
    rewrite (tickNumbers_db m) by done. by apply IH.
Qed.

(** ** The journal *)

Lemma encodeForType_inv (tx : Message any) currList acc pending :
  encodeForType tx currList acc = Ok pending ->
  exists new, pending = acc ++ new
    /\ Forall2 journals new ((fun d => (tx, d)) <$> currList).
Proof.
  revert acc. induction currList as [|d l IH]; intros acc; cbn.
  - intros [= <-]. exists []. by rewrite app_nil_r.
  - destruct (Encode tx (Msg d)) as [buf|e|] eqn:Hd; [|done..].
    intros (new & -> & Hnew)%IH.
    eexists (_ :: new). split; [by rewrite <- app_assoc|].
    constructor; [|done]. by repeat split.
Qed.

Lemma collectPending_inv txs pool acc pending :
  collectPending txs pool acc = Ok pending ->
  exists new, pending = acc ++ new
    /\ Forall2 journals new (journalled txs pool).
Proof.
  revert acc. induction txs as [|tx txs IH]; intros acc; cbn.
  - intros [= <-]. exists []. by rewrite app_nil_r.
  - destruct (encodeForType tx (ForID pool (ID tx)) acc) as [acc'|e|] eqn:Hd;
      [|done..].
    apply encodeForType_inv in Hd as (new1 & -> & H1).
    intros (new2 & -> & H2)%IH.
    exists (new1 ++ new2). split; [by rewrite <- app_assoc|].
    by apply Forall2_app.
Qed.

(** What the pool holds under an ID no descriptor has is never looked at. *)
Lemma collectPending_absent_id txs pool acc id l :
  id ∉ ID <$> txs ->
  collectPending txs (<[id := l]> pool) acc = collectPending txs pool acc.
Proof.
  revert acc. induction txs as [|tx txs IH]; intros acc Hid; [done|].
  cbn in *. apply not_elem_of_cons in Hid as [Hne Hid].
  unfold ForID at 1. rewrite lookup_insert_ne by done. fold (ForID pool (ID tx)).
  destruct (encodeForType tx (ForID pool (ID tx)) acc); [by apply IH|done..].
Qed.

Lemma journalled_types txs pool e :
  e ∈ journalled txs pool ->
  fst e ∈ txs /\ snd e ∈ ForID pool (ID (fst e)).
Proof.
  unfold journalled. rewrite list_elem_of_In, in_flat_map.
  intros (tx & Htx%list_elem_of_In & He%list_elem_of_In).
  apply list_elem_of_fmap in He as (d & -> & Hd). done.
Qed.

(** C10: the journal value a successful [StartNextTick] writes holds one
    record for each descriptor of [txs] and each transaction the pool has
    under that descriptor's ID, grouped in descriptor order and in
    submission order within a type; every record has the type ID of some
    descriptor of [txs]; and whatever the pool holds under an ID that no
    descriptor of [txs] has is left out without any error: the call behaves
    the same with or without it. *)
Theorem journal_holds_described_types txs pool m m' :
  StartNextTick codecEncode txs pool m = (Ok tt, m') ->
  exists pending buf,
    codecEncode pending = Ok buf
    /\ db (dbStorage m') !! storagePendingTransactionKey = Some (VBytes buf)
    /\ Forall2 journals pending (journalled txs pool)
    /\ (forall p, p ∈ pending -> TypeID p ∈ ID <$> txs)
    /\ (forall id l, id ∉ ID <$> txs ->
          StartNextTick codecEncode txs (<[id := l]> pool) m = (Ok tt, m')).
Proof.
  intros H. pose proof H as H0.
  apply StartNextTick_inv in H as (_ & _ & pending & buf & Hp & Hb & Hc).
  apply start_commands_inv in Hc as (Hj & _).
  pose proof Hp as Hp0.
  apply collectPending_inv in Hp as (new & -> & Hf). cbn in Hf.
  exists new, buf. repeat split; [done..| |].
  - intros p Hp. apply list_elem_of_lookup in Hp as [i Hi].
    destruct (Forall2_lookup_l _ _ _ _ _ Hf Hi) as (e & He & Hje).
    apply list_elem_of_lookup_2, journalled_types in He as [He _].
    destruct Hje as (-> & _). apply list_elem_of_fmap. eauto.
  - intros id l Hid. rewrite <- H0.
    unfold StartNextTick, addPendingTransactionToPipe.
    by rewrite collectPending_absent_id.
Qed.

(** ** Recovery *)

(** [Recover] when the backend answers. *)
Lemma Recover_answered txs m :
  faults (dbStorage m) = [] ->
  fst (Recover HashHex codecDecode txs m) =
  match db (dbStorage m) !! storagePendingTransactionKey with
  | None => Err (wrapped "" redisNil)
  | Some (VUInt _) =>
      Err (wrapped "" (backendError "value is not a byte string"))
  | Some (VBytes bz) =>
      match codecDecode bz with
      | Ok pending => rebuildPool HashHex (indexByID txs ∅) pending New
      | Err e => Err e
      | Panic => Panic
      end
  end.
Proof.
  destruct m as [[d fs] ms pa]. cbn. intros ->.
  unfold Recover, bind, wrapErr, onStorage, lift, GetBytes, nextFault. cbn.
  destruct (d !! storagePendingTransactionKey) as [[n|bz]|]; cbn; [done| |done].
  by destruct (codecDecode bz).
Qed.

Lemma GetTickNumbers_answered m :
  faults (dbStorage m) = [] -> fst (GetTickNumbers m) = tickNumbers m.
Proof.
  destruct m as [[d fs] ms pa]. cbn. by intros ->.
Qed.

(** C6, amended: [GetTickNumbers] reads an absent start or end counter key
    as 0, so that a store in which neither was ever written yields
    [(0, 0, nil)]; [Recover] has no such case: on an absent journal key it
    returns the backend's not-found error, wrapped. *)
Theorem absent_keys_on_first_run txs m :
  faults (dbStorage m) = [] ->
  let d := db (dbStorage m) in
  (d !! storageStartTickKey = None -> d !! storageEndTickKey = None ->
     fst (GetTickNumbers m) = Ok (0, 0))
  /\ (forall e, d !! storageStartTickKey = None ->
        d !! storageEndTickKey = Some (VUInt e) ->
        fst (GetTickNumbers m) = Ok (0, e))
  /\ (forall s, d !! storageStartTickKey = Some (VUInt s) ->
        d !! storageEndTickKey = None ->
        fst (GetTickNumbers m) = Ok (s, 0))
  /\ (d !! storagePendingTransactionKey = None ->
        fst (Recover HashHex codecDecode txs m) = Err (wrapped "" redisNil)).
Proof.
  intros Hf d. rewrite GetTickNumbers_answered by done.
  repeat split.
  - intros Hs He. apply tickNumbers_Ok. unfold counterAt. fold d.
    by rewrite Hs, He.
  - intros e Hs He. apply tickNumbers_Ok. unfold counterAt. fold d.
    by rewrite Hs, He.
  - intros s Hs He. apply tickNumbers_Ok. unfold counterAt. fold d.
    by rewrite Hs, He.
  - intros Hp. rewrite Recover_answered by done. fold d. by rewrite Hp.
Qed.

Lemma indexByID_absent txs (idToTx : gmap MessageID (Message any)) id :
  id ∉ ID <$> txs -> indexByID txs idToTx !! id = idToTx !! id.
Proof.
  revert idToTx. induction txs as [|tx txs IH]; intros idToTx Hid; [done|].
  cbn in *. apply not_elem_of_cons in Hid as [Hne Hid].
  rewrite IH by done. by apply lookup_insert_ne.
Qed.

Lemma indexByID_present txs (idToTx : gmap MessageID (Message any)) tx :
  NoDup (ID <$> txs) -> tx ∈ txs -> indexByID txs idToTx !! ID tx = Some tx.
Proof.
  revert idToTx. induction txs as [|t txs IH]; intros idToTx Hnd Htx.
  - by apply elem_of_nil in Htx.
  - cbn in *. apply NoDup_cons in Hnd as [Hnotin Hnd].
    apply elem_of_cons in Htx as [->|Htx].
    + rewrite indexByID_absent by done. apply lookup_insert_eq.
    + by apply IH.
Qed.

(** A journal entry of a type no descriptor has makes [Recover] panic: the
    entries before it are replayed, and then [Decode] is called on the nil
    descriptor the lookup gave. *)
Lemma rebuildPool_unknown_type idToTx pre p post
    (txPool : gmap MessageID (list (TxData any Transaction))) :
  (forall q, q ∈ pre ->
     exists tx v, idToTx !! TypeID q = Some tx /\ Decode tx (Data q) = Ok v) ->
  idToTx !! TypeID p = None ->
  rebuildPool HashHex idToTx (pre ++ p :: post) txPool = Panic.
Proof.
  revert txPool. induction pre as [|q pre IH]; intros txPool Hpre Hp; cbn.
  - by rewrite Hp.
  - destruct (Hpre q) as (tx & v & -> & ->); [by left|].
    apply IH; [|done]. intros q' Hq'. apply Hpre. by right.
Qed.

Lemma Recover_unknown_type_panics txs m bz pre p post :
  faults (dbStorage m) = [] ->
  db (dbStorage m) !! storagePendingTransactionKey = Some (VBytes bz) ->
  codecDecode bz = Ok (pre ++ p :: post) ->
  (forall q, q ∈ pre ->
     exists tx v, indexByID txs ∅ !! TypeID q = Some tx
       /\ Decode tx (Data q) = Ok v) ->
  TypeID p ∉ ID <$> txs ->
  fst (Recover HashHex codecDecode txs m) = Panic.
Proof.
  intros Hf Hj Hd Hpre Hp. rewrite Recover_answered, Hj, Hd by done.
  apply rebuildPool_unknown_type; [done|].
  by rewrite indexByID_absent.
Qed.

Lemma ForID_AddTransaction pool i v sig id :
  ForID (AddTransaction HashHex pool i v sig) id =
  if decide (id = i) then ForID pool i ++ [mkTxData v (HashHex sig) sig]
  else ForID pool id.
Proof.
  unfold AddTransaction. unfold ForID at 1. case_decide as Hid.
  - subst. by rewrite lookup_insert_eq.
  - by rewrite lookup_insert_ne.
Qed.

(** Replaying a journal whose records encode the pool entries [entries]:
    every entry is appended, in journal order, under its descriptor's ID. *)
Lemma rebuildPool_journal idToTx pending
    (entries : list (Message any * TxData any Transaction)) pool :
  Forall2 journals pending entries ->
  (forall e, e ∈ entries ->
     idToTx !! ID (fst e) = Some (fst e)
     /\ forall v b, Encode (fst e) v = Ok b -> Decode (fst e) b = Ok v) ->
  exists pool',
    rebuildPool HashHex idToTx pending pool = Ok pool'
    /\ forall id,
         observe <$> ForID pool' id =
         (observe <$> ForID pool id)
         ++ (observe ∘ snd <$> filter (fun e => ID (fst e) = id) entries).
Proof.
  intros Hj. revert pool.
  induction Hj as [|p e ps es (Hid & _ & Htx & Henc) _ IH]; intros pool Hes.
  - exists pool. split; [done|]. intros id. by rewrite app_nil_r.
  - destruct (Hes e) as [Hlook Hinv]; [by left|].
    cbn [rebuildPool]. rewrite Hid, Hlook, (Hinv _ _ Henc).
    destruct (IH (AddTransaction HashHex pool (ID (fst e)) (Msg (snd e)) (pTx p)))
      as (pool' & -> & Hpool').
    { intros e' He'. apply Hes. by right. }
    exists pool'. split; [done|]. intros id.
    rewrite Hpool', ForID_AddTransaction.
    case_decide as Hc.
    + subst id. rewrite filter_cons_True by done.
      rewrite fmap_app, <- app_assoc. cbn. unfold observe at 3. cbn.
      by rewrite Htx.
    + rewrite filter_cons_False by done. done.
Qed.

Lemma filter_entries_of (tx : Message any) currList id :
  filter (fun e : Message any * TxData any Transaction => ID (fst e) = id)
    ((fun d => (tx, d)) <$> currList)
  = if decide (ID tx = id) then (fun d => (tx, d)) <$> currList else [].
Proof.
  destruct (decide (ID tx = id)) as [Hc|Hc];
    induction currList as [|d l IH]; [done| |done|]; rewrite fmap_cons.
  - rewrite filter_cons_True by done. by rewrite IH.
  - by rewrite filter_cons_False.
Qed.

(** With pairwise distinct descriptor IDs, the journal holds under an ID
    exactly what the pool holds under it, if some descriptor has that ID,
    and nothing otherwise. *)
Lemma journalled_filter txs pool id :
  NoDup (ID <$> txs) ->
  snd <$> filter (fun e => ID (fst e) = id) (journalled txs pool)
  = if decide (id ∈ ID <$> txs) then ForID pool id else [].
Proof.
  induction txs as [|tx txs IH]; intros Hnd.
  - cbn. case_decide as Hc; [by apply elem_of_nil in Hc|done].
  - cbn in Hnd. apply NoDup_cons in Hnd as [Hnotin Hnd].
    unfold journalled. cbn [flat_map]. fold (journalled txs pool).
    rewrite filter_app, fmap_app, filter_entries_of, (IH Hnd).
    destruct (decide (ID tx = id)) as [Heq|Hne].
    + subst id. rewrite decide_False by done.
      rewrite decide_True by (cbn; left).
      rewrite app_nil_r, <- list_fmap_compose.
      by rewrite list_fmap_id.
    + cbn [fmap list_fmap app].
      destruct (decide (id ∈ ID <$> txs)) as [Hin|Hnin].
      * rewrite decide_True by (cbn; by right). done.
      * rewrite decide_False; [done|].
        cbn. intros [->|Hin]%elem_of_cons; done.
Qed.

(** C1, amended: let [StartNextTick] succeed on a pool [P] and a descriptor
    list whose IDs are pairwise distinct and cover every message type [P]
    holds transactions under, and let no [FinalizeTick] follow.  Then
    [Recover], with the same descriptors, returns a freshly built pool that
    is observably equal to [P] (under every type the same payloads with the
    same source transactions in the same order), the decoders of the codec
    and of the descriptors being left inverses of their encoders. *)
Theorem Recover_rebuilds_the_pool txs pool m m' :
  (forall l bz, codecEncode l = Ok bz -> codecDecode bz = Ok l) ->
  (forall tx v b, tx ∈ txs -> Encode tx v = Ok b -> Decode tx b = Ok v) ->
  NoDup (ID <$> txs) ->
  (forall id, ForID pool id <> [] -> id ∈ ID <$> txs) ->
  StartNextTick codecEncode txs pool m = (Ok tt, m') ->
  exists pool',
    fst (Recover HashHex codecDecode txs (withoutFaults m')) = Ok pool'
    /\ observablyEqual pool' pool.
Proof.
  intros Hcodec Hdesc Hnd Hcover H.
  apply StartNextTick_inv in H as (_ & _ & pending & buf & Hp & Hb & Hc).
  apply start_commands_inv in Hc as (Hj & _).
  apply collectPending_inv in Hp as (new & -> & Hf). cbn in Hf.
  rewrite Recover_answered by done.
  cbn [withoutFaults dbStorage db]. rewrite Hj, (Hcodec _ _ Hb).
  destruct (rebuildPool_journal (indexByID txs ∅) new (journalled txs pool) New Hf)
    as (pool' & Hr & Hpool').
  { intros e [He _]%journalled_types. split; [by apply indexByID_present|].
    intros v b. by apply Hdesc. }
  exists pool'. split; [done|]. intros id.
  rewrite Hpool'. unfold ForID at 1, New. rewrite lookup_empty. cbn [default fmap list_fmap app].
  rewrite list_fmap_compose, journalled_filter by done.
  case_decide as Hin; [done|].
  destruct (ForID pool id) eqn:E; [done|].
  destruct Hin. apply Hcover. by rewrite E.
Qed.

End TickProperties.

(** ** The concrete codec *)

Module WireFacts.

Import Wire.

Lemma getPos_putPos p rest : getPos (putPos p ++ rest) = Some (p, rest).
Proof. induction p as [p IH|p IH|]; cbn; by rewrite ?IH. Qed.

Lemma getZ_putZ z rest : getZ (putZ z ++ rest) = Some (z, rest).
Proof. destruct z; cbn; by rewrite ?getPos_putPos. Qed.

Lemma getBytes_putBytes l rest : getBytes (putBytes l ++ rest) = Some (l, rest).
Proof. induction l as [|b l IH]; cbn; by rewrite ?IH. Qed.

Lemma getString_putString s rest :
  getString (putString s ++ rest) = Some (s, rest).
Proof.
  unfold getString, putString. rewrite getBytes_putBytes.
  by rewrite String.string_of_list_byte_of_string.
Qed.

Lemma getPending_putPending p rest :
  getPending (putPending p ++ rest) = Some (p, rest).
Proof.
  unfold getPending, putPending. rewrite <- !app_assoc.
  rewrite getZ_putZ, getString_putString, getBytes_putBytes,
    getString_putString.
  by destruct p.
Qed.

Lemma getRecords_putRecords l rest :
  getRecords (length l) (putRecords l ++ rest) = Some (l, rest).
Proof.
  induction l as [|p l IH]; [done|].
  cbn [length putRecords getRecords]. rewrite <- app_assoc.
  by rewrite getPending_putPending, IH.
Qed.

(** The decoder is a left inverse of the encoder. *)
Lemma decode_encode l bz : encode l = Ok bz -> decode bz = Ok l.
Proof.
  unfold encode, decode. intros [= <-].
  rewrite getPos_putPos, SuccNat2Pos.pred_id.
  rewrite <- (app_nil_r (putRecords l)). by rewrite getRecords_putRecords.
Qed.

Lemma intMessage_Decode_Encode id v b :
  Encode (intMessage id) v = Ok b -> Decode (intMessage id) b = Ok v.
Proof.
  cbn. intros [= <-]. rewrite <- (app_nil_r (putZ v)). by rewrite getZ_putZ.
Qed.

End WireFacts.

(** C7: on the journal codec modelled from the spec, the single journal
    value a successful [StartNextTick] writes, for every pool (non-empty or
    empty), is the serialization of the records built from the pool: one
    record (typeID, rawPayload, txHash, sourceTransaction) for each
    descriptor and each transaction the pool has under its ID, in journal
    order; and decoding that value gives back exactly this sequence of
    records, the same tuples in the same order. *)
Theorem journal_decodes_to_the_records {any : Type}
    (txs : list (Message any))
    (pool : gmap MessageID (list (TxData any string)))
    (m m' : EntityCommandBuffer) :
  StartNextTick Wire.encode txs pool m = (Ok tt, m') ->
  exists pending bz,
    db (dbStorage m') !! storagePendingTransactionKey = Some (VBytes bz)
    /\ Wire.encode pending = Ok bz
    /\ Forall2 journals pending (journalled txs pool)
    /\ length pending = length (journalled txs pool)
    /\ Wire.decode bz = Ok pending
    /\ (forall decoded, Wire.decode bz = Ok decoded ->
          (fun p => (TypeID p, Data p, pTxHash p, pTx p)) <$> decoded
          = (fun p => (TypeID p, Data p, pTxHash p, pTx p)) <$> pending).
Proof.
  intros H.
  apply StartNextTick_inv in H as (_ & _ & pending & buf & Hp & Hb & Hc).
  apply start_commands_inv in Hc as (Hj & _).
  apply collectPending_inv in Hp as (new & -> & Hf). cbn [app] in *.
  pose proof (WireFacts.decode_encode _ _ Hb) as Hd.
  exists new, buf. split; [done|]. split; [done|]. split; [done|].
  split; [by eapply Forall2_length|]. split; [done|].
  intros decoded Hdec. rewrite Hd in Hdec. by injection Hdec as <-.
Qed.

(** ** The properties on the concrete run *)

Import Wire Scenario.

(** C1 fails as stated.  A pool that holds a transaction under a type no
    descriptor of the list has is recovered without it; and with two
    descriptors of one ID the transactions of that type are recovered
    twice.  In both runs every decoder is a left inverse of its encoder. *)
Lemma Recover_differs_from_the_pool :
  (fst (StartNextTick encode [intMessage 1] pool (freshBuffer [])) = Ok tt
   /\ exists pool',
        fst (Recover hashHex decode [intMessage 1]
               (withoutFaults startedNarrow)) = Ok pool'
        /\ ForID pool 2%Z = [mkTxData 7%Z "bob" "bob"]
        /\ ForID pool' 2%Z = []
        /\ ~ observablyEqual pool' pool)
  /\ (fst (StartNextTick encode repeated pool (freshBuffer [])) = Ok tt
      /\ exists pool',
           fst (Recover hashHex decode repeated
                  (withoutFaults startedRepeated)) = Ok pool'
           /\ length (ForID pool 1%Z) = 2%nat
           /\ length (ForID pool' 1%Z) = 4%nat
           /\ ~ observablyEqual pool' pool).
Proof.
  split; (split; [by vm_compute|]).
  - destruct (fst (Recover hashHex decode [intMessage 1]
                     (withoutFaults startedNarrow))) as [pool'|e|] eqn:E;
      [|by vm_compute in E..].
    exists pool'. split; [done|].
    assert (ForID pool' 2%Z = []) as H'.
    { vm_compute in E. injection E as <-. by vm_compute. }
    assert (ForID pool 2%Z = [mkTxData 7%Z "bob" "bob"]) as H
      by (by vm_compute).
    repeat split; [done..|].
    intros Heq. specialize (Heq 2%Z). by rewrite H, H' in Heq.
  - destruct (fst (Recover hashHex decode repeated
                     (withoutFaults startedRepeated))) as [pool'|e|] eqn:E;
      [|by vm_compute in E..].
    exists pool'. split; [done|].
    assert (length (ForID pool' 1%Z) = 4%nat) as H'.
    { vm_compute in E. injection E as <-. by vm_compute. }
    assert (length (ForID pool 1%Z) = 2%nat) as H by (by vm_compute).
    repeat split; [done..|].
    intros Heq. specialize (Heq 1%Z).
    apply (f_equal length) in Heq. rewrite !length_fmap in Heq. lia.
Qed.

Lemma Recover_rebuilds_the_pool_witness :
  (forall l bz, encode l = Ok bz -> decode bz = Ok l)
  /\ (forall tx v b, tx ∈ descriptors ->
        Encode tx v = Ok b -> Decode tx b = Ok v)
  /\ NoDup (ID <$> descriptors)
  /\ (forall id, ForID pool id <> [] -> id ∈ ID <$> descriptors)
  /\ StartNextTick encode descriptors pool (freshBuffer []) = (Ok tt, started)
  /\ exists pool',
       fst (Recover hashHex decode descriptors (withoutFaults started))
       = Ok pool'
       /\ observablyEqual pool' pool.
Proof.
  assert (forall tx v b, tx ∈ descriptors ->
            Encode tx v = Ok b -> Decode tx b = Ok v) as Hdesc.
  { intros tx v b Htx. unfold descriptors in Htx.
    apply elem_of_cons in Htx as [->|Htx];
      [apply WireFacts.intMessage_Decode_Encode|].
    apply elem_of_cons in Htx as [->|Htx];
      [apply WireFacts.intMessage_Decode_Encode|].
    by apply elem_of_nil in Htx. }
  assert (NoDup (ID <$> descriptors)) as Hnd.
  { cbn. apply NoDup_cons. split; [|apply NoDup_singleton].
    intros H%list_elem_of_singleton. discriminate H. }
  assert (forall id, ForID pool id <> [] -> id ∈ ID <$> descriptors) as Hcover.
  { intros id H. cbn.
    destruct (decide (id = 1%Z)) as [->|H1]; [by left|].
    destruct (decide (id = 2%Z)) as [->|H2]; [right; by left|].
    destruct H. unfold ForID, pool, addTransaction, AddTransaction.
    by rewrite !lookup_insert_ne. }
  assert (StartNextTick encode descriptors pool (freshBuffer [])
          = (Ok tt, started)) as Hstart by (vm_compute; reflexivity).
  repeat split; [exact WireFacts.decode_encode|done..|].
  exact (Recover_rebuilds_the_pool hashHex encode decode descriptors pool
           (freshBuffer []) started WireFacts.decode_encode Hdesc Hnd Hcover
           Hstart).
Defined.

(** C2 fails as stated: nothing in [FinalizeTick] checks that a tick is in
    flight, and a [FinalizeTick] issued on a fresh store puts the end
    counter ahead of the start counter. *)
Lemma FinalizeTick_unguarded_breaks_invariant :
  reachable (any := Z) encode (fun _ => True)
    (snd (FinalizeTick (freshBuffer [])))
  /\ tickNumbers (snd (FinalizeTick (freshBuffer []))) = Ok (0, 1)
  /\ ~ tickInvariant (snd (FinalizeTick (freshBuffer []))).
Proof.
  assert (tickNumbers (snd (FinalizeTick (freshBuffer []))) = Ok (0, 1)) as Ht
    by (by vm_compute).
  split; [|split; [done|]].
  - apply reach_finalize; [apply reach_fresh|done].
  - intros (s & e & Hse & _ & Hle & _). rewrite Ht in Hse.
    injection Hse as <- <-. lia.
Qed.

Lemma counter_invariant_witness :
  reachable (any := Z) encode inFlight finalized /\ tickInvariant finalized.
Proof.
  assert (reachable (any := Z) encode inFlight started) as Hstarted.
  { apply (reach_start encode inFlight (freshBuffer []) descriptors pool).
    - apply reach_fresh.
    - exists 0. vm_compute. reflexivity. }
  assert (reachable (any := Z) encode inFlight (simulated [])) as Hsimulated.
  { apply (reach_faults encode inFlight
             (mkECB (dbStorage started)
                (mutationSet started ++ mutationSet (simulated []))
                (pendingArchIDs started ++ [3%Z])) []).
    apply reach_simulate; [exact Hstarted|]. repeat constructor. }
  assert (reachable (any := Z) encode inFlight finalized) as Hreach.
  { apply reach_finalize; [exact Hsimulated|].
    exists 0. vm_compute. reflexivity. }
  split; [exact Hreach|].
  exact (counter_invariant encode finalized Hreach).
Defined.

Lemma StartNextTick_error_leaves_store_witness :
  let m := freshBuffer startCommitFails in
  let e := wrapped "failed to end transaction"
             (backendError "connection reset") in
  StartNextTick encode descriptors pool m = (Err e, freshBuffer [])
  /\ db (dbStorage (freshBuffer [])) = db (dbStorage m)
  /\ tickNumbers (freshBuffer []) = tickNumbers m
  /\ db (dbStorage (freshBuffer [])) !! storagePendingTransactionKey
     = db (dbStorage m) !! storagePendingTransactionKey.
Proof.
  intros m e.
  assert (StartNextTick encode descriptors pool m = (Err e, freshBuffer []))
    as H by (vm_compute; reflexivity).
  split; [exact H|].
  exact (StartNextTick_error_leaves_store encode descriptors pool m e
           (freshBuffer []) H).
Defined.

(** C4 fails as stated: when the commit went through and [DiscardPending]
    then fails, [FinalizeTick] returns an error although the end counter has
    been incremented and [pendingArchIDs] has been cleared. *)
Lemma FinalizeTick_error_after_commit :
  fst (FinalizeTick (simulated discardFails))
  = Err (wrapped "failed to discard pending transaction"
           (backendError "discard failed"))
  /\ tickNumbers (simulated discardFails) = Ok (1, 0)
  /\ tickNumbers (snd (FinalizeTick (simulated discardFails))) = Ok (1, 1)
  /\ pendingArchIDs (simulated discardFails) = [3%Z]
  /\ pendingArchIDs (snd (FinalizeTick (simulated discardFails))) = [].
Proof. repeat split; by vm_compute. Qed.

Lemma FinalizeTick_error_before_commit_witness :
  let m := simulated finalizeCommitFails in
  let e := wrapped "failed to end transaction"
             (backendError "connection reset") in
  FinalizeTick m = (Err e, simulated [])
  /\ (forall e0, e <> wrapped "failed to discard pending transaction" e0)
  /\ db (dbStorage (simulated [])) = db (dbStorage m)
  /\ tickNumbers (simulated []) = tickNumbers m
  /\ mutationSet (simulated []) = mutationSet m
  /\ pendingArchIDs (simulated []) = pendingArchIDs m.
Proof.
  intros m e.
  assert (FinalizeTick m = (Err e, simulated [])) as H
    by (vm_compute; reflexivity).
  assert (forall e0, e <> wrapped "failed to discard pending transaction" e0)
    as He by (intros e0; discriminate).
  split; [exact H|]. split; [exact He|].
  exact (FinalizeTick_error_before_commit m e (simulated []) H He).
Defined.

(** C5 fails on the code: the journal of [started] holds a transaction of
    the second message type, and [Recover], called with a descriptor of the
    first type only, does not return an error: it panics. *)
Lemma Recover_panics_on_unknown_type :
  (exists bz pending,
     db (dbStorage started) !! storagePendingTransactionKey = Some (VBytes bz)
     /\ decode bz = Ok pending
     /\ 2%Z ∈ TypeID <$> pending
     /\ 2%Z ∉ ID <$> [intMessage 1])
  /\ fst (Recover hashHex decode [intMessage 1] (withoutFaults started))
     = Panic.
Proof.
  split; [|by vm_compute].
  destruct (db (dbStorage started) !! storagePendingTransactionKey)
    as [[n|bz]|] eqn:Hj; [by vm_compute in Hj| |by vm_compute in Hj].
  destruct (decode bz) as [pending|e|] eqn:Hd.
  - exists bz, pending. repeat split; [done| |].
    + vm_compute in Hj. injection Hj as <-.
      vm_compute in Hd. injection Hd as <-.
      cbn. right. right. by left.
    + cbn. intros H%list_elem_of_singleton. discriminate H.
  - vm_compute in Hj. injection Hj as <-. by vm_compute in Hd.
  - vm_compute in Hj. injection Hj as <-. by vm_compute in Hd.
Qed.

(** C6 fails as stated: on a store whose journal key was never written,
    [Recover] returns an error. *)
Lemma Recover_absent_journal_is_error :
  db (dbStorage (freshBuffer [])) !! storagePendingTransactionKey = None
  /\ fst (Recover hashHex decode descriptors (freshBuffer []))
     = Err (wrapped "" redisNil).
Proof. split; by vm_compute. Qed.

Lemma absent_keys_on_first_run_witness :
  faults (dbStorage (freshBuffer [])) = []
  /\ fst (GetTickNumbers (freshBuffer [])) = Ok (0, 0)
  /\ fst (Recover hashHex decode descriptors (freshBuffer []))
     = Err (wrapped "" redisNil).
Proof.
  destruct (absent_keys_on_first_run hashHex decode descriptors
              (freshBuffer []) eq_refl) as (H1 & _ & _ & H4).
  split; [reflexivity|]. split; [apply H1; reflexivity|apply H4; reflexivity].
Defined.

Lemma journal_decodes_to_the_records_witness :
  StartNextTick encode descriptors pool (freshBuffer []) = (Ok tt, started)
  /\ exists pending bz,
       db (dbStorage started) !! storagePendingTransactionKey
       = Some (VBytes bz)
       /\ encode pending = Ok bz
       /\ Forall2 journals pending (journalled descriptors pool)
       /\ length pending = length (journalled descriptors pool)
       /\ decode bz = Ok pending
       /\ (forall decoded, decode bz = Ok decoded ->
             (fun p => (TypeID p, Data p, pTxHash p, pTx p)) <$> decoded
             = (fun p => (TypeID p, Data p, pTxHash p, pTx p)) <$> pending).
Proof.
  assert (StartNextTick encode descriptors pool (freshBuffer [])
          = (Ok tt, started)) as H by (vm_compute; reflexivity).
  split; [exact H|].
  exact (journal_decodes_to_the_records descriptors pool (freshBuffer [])
           started H).
Defined.

Lemma StartNextTick_bumps_start_only_witness :
  StartNextTick encode descriptors pool (freshBuffer []) = (Ok tt, started)
  /\ (exists s,
        counterAt (db (dbStorage (freshBuffer []))) storageStartTickKey
        = Some s
        /\ counterAt (db (dbStorage started)) storageStartTickKey
           = Some (s + 1))
  /\ db (dbStorage started) !! storageEndTickKey
     = db (dbStorage (freshBuffer [])) !! storageEndTickKey
  /\ (forall s e, tickNumbers (freshBuffer []) = Ok (s, e) ->
        tickNumbers started = Ok (s + 1, e))
  /\ (forall k, k <> storageStartTickKey ->
        k <> storagePendingTransactionKey ->
        db (dbStorage started) !! k = db (dbStorage (freshBuffer [])) !! k)
  /\ mutationSet started = mutationSet (freshBuffer [])
  /\ pendingArchIDs started = pendingArchIDs (freshBuffer []).
Proof.
  assert (StartNextTick encode descriptors pool (freshBuffer [])
          = (Ok tt, started)) as H by (vm_compute; reflexivity).
  split; [exact H|].
  exact (StartNextTick_bumps_start_only encode descriptors pool
           (freshBuffer []) started H).
Defined.

Lemma FinalizeTick_bumps_end_only_witness :
  avoidsTickKeys (mutationSet (simulated []))
  /\ FinalizeTick (simulated []) = (Ok tt, finalized)
  /\ db (dbStorage finalized) !! storageStartTickKey
     = db (dbStorage (simulated [])) !! storageStartTickKey
  /\ (exists e,
        counterAt (db (dbStorage (simulated []))) storageEndTickKey = Some e
        /\ counterAt (db (dbStorage finalized)) storageEndTickKey
           = Some (e + 1))
  /\ (forall s e, tickNumbers (simulated []) = Ok (s, e) ->
        tickNumbers finalized = Ok (s, e + 1)
        /\ (s = e + 1 -> tickNumbers finalized = Ok (s, s)))
  /\ mutationSet finalized = []
  /\ pendingArchIDs finalized = [].
Proof.
  assert (avoidsTickKeys (mutationSet (simulated []))) as Hms
    by (repeat constructor).
  assert (FinalizeTick (simulated []) = (Ok tt, finalized)) as H
    by (vm_compute; reflexivity).
  split; [exact Hms|]. split; [exact H|].
  exact (FinalizeTick_bumps_end_only (simulated []) finalized Hms H).
Defined.

Lemma journal_holds_described_types_witness :
  StartNextTick encode [intMessage 1] pool (freshBuffer [])
  = (Ok tt, startedNarrow)
  /\ exists pending buf,
       encode pending = Ok buf
       /\ db (dbStorage startedNarrow) !! storagePendingTransactionKey
          = Some (VBytes buf)
       /\ Forall2 journals pending (journalled [intMessage 1] pool)
       /\ (forall p, p ∈ pending -> TypeID p ∈ ID <$> [intMessage 1])
       /\ (forall id l, id ∉ ID <$> [intMessage 1] ->
             StartNextTick encode [intMessage 1] (<[id := l]> pool)
               (freshBuffer []) = (Ok tt, startedNarrow)).
Proof.
  assert (StartNextTick encode [intMessage 1] pool (freshBuffer [])
          = (Ok tt, startedNarrow)) as H by (vm_compute; reflexivity).
  split; [exact H|].
  exact (journal_holds_described_types encode [intMessage 1] pool
           (freshBuffer []) startedNarrow H).
Defined.

(** ** The scenarios of the protocol *)

(** A fresh store reads as [(0, 0)]. *)
Example scenario_fresh_store :
  fst (GetTickNumbers (freshBuffer [])) = Ok (0, 0).
Proof. reflexivity. Qed.

(** Starting a tick makes the counters [(1, 0)] and journals the pool. *)
Example scenario_start :
  tickNumbers started = Ok (1, 0)
  /\ exists bz,
       db (dbStorage started) !! storagePendingTransactionKey
       = Some (VBytes bz)
       /\ decode bz
          = Ok [mkPending 1%Z "alice" (putZ 5) "alice";
                mkPending 1%Z "carol" (putZ (-3)) "carol";
                mkPending 2%Z "bob" (putZ 7) "bob"].
Proof. split; [by vm_compute|]. eexists. split; by vm_compute. Qed.

(** Finalizing it makes them [(1, 1)] and clears the buffer. *)
Example scenario_finalize :
  tickNumbers finalized = Ok (1, 1)
  /\ mutationSet finalized = []
  /\ db (dbStorage finalized) !! "ECB:COMPONENT-VALUE:1:7"
     = Some (VBytes [Byte.x2a]).
Proof. repeat split; by vm_compute. Qed.

(** After a crash in the started tick, the pool is recovered. *)
Example scenario_recover :
  exists recovered,
    fst (Recover hashHex decode descriptors (withoutFaults started))
    = Ok recovered
    /\ ForID recovered 1%Z
       = [mkTxData 5%Z "alice" "alice"; mkTxData (-3)%Z "carol" "carol"]
    /\ ForID recovered 2%Z = [mkTxData 7%Z "bob" "bob"].
Proof. eexists. repeat split; by vm_compute. Qed.

(** An empty pool journals the empty sequence, and is recovered as empty. *)
Example scenario_empty_pool :
  let m := snd (StartNextTick encode descriptors New (freshBuffer [])) in
  tickNumbers m = Ok (1, 0)
  /\ fst (Recover hashHex decode descriptors (withoutFaults m)) = Ok New.
Proof. split; by vm_compute. Qed.

(** * Further properties of the tick protocol *)

Section TickReads.

Context {any Transaction : Type}.
Variable HashHex : Transaction -> string.
Variable codecEncode : list (pendingTransaction Transaction) -> result bytes.
Variable codecDecode : bytes -> result (list (pendingTransaction Transaction)).

Implicit Types (txs : list (Message any))
  (pool : gmap MessageID (list (TxData any Transaction)))
  (pending : list (pendingTransaction Transaction))
  (m : EntityCommandBuffer).

Lemma readTick_inv key m r m' :
  readTick key m = (r, m') ->
  db (dbStorage m') = db (dbStorage m)
  /\ mutationSet m' = mutationSet m
  /\ pendingArchIDs m' = pendingArchIDs m.
Proof.
  destruct m as [[d fs] ms pa].
  unfold readTick, onStorage, GetUInt64, nextFault. cbn.
  intros H. break_all; done.
Qed.

(** X1: [GetTickNumbers] only reads: whatever it returns, and whichever of its
    reads fail, the store, the mutation set and [pendingArchIDs] are as
    before, so that the counters read the same afterwards. *)
Theorem GetTickNumbers_reads_only m :
  db (dbStorage (snd (GetTickNumbers m))) = db (dbStorage m)
  /\ mutationSet (snd (GetTickNumbers m)) = mutationSet m
  /\ pendingArchIDs (snd (GetTickNumbers m)) = pendingArchIDs m
  /\ tickNumbers (snd (GetTickNumbers m)) = tickNumbers m.
Proof.
  assert (db (dbStorage (snd (GetTickNumbers m))) = db (dbStorage m)
          /\ mutationSet (snd (GetTickNumbers m)) = mutationSet m
          /\ pendingArchIDs (snd (GetTickNumbers m)) = pendingArchIDs m)
    as (Hd & Hm & Hp).
  { unfold GetTickNumbers, bind, ret.
    destruct (readTick storageStartTickKey m) as [r1 m1] eqn:E1.
    apply readTick_inv in E1 as (Hd1 & Hm1 & Hp1).
    destruct r1 as [s|e|]; cbn; [|done..].
    destruct (readTick storageEndTickKey m1) as [r2 m2] eqn:E2.
    apply readTick_inv in E2 as (Hd2 & Hm2 & Hp2).
    destruct r2; cbn; repeat split; congruence. }
  repeat split; [done..|]. by apply tickNumbers_db.
Qed.

(** X2: A backend failure of [GetTickNumbers] whose cause is not [redis.Nil] is
    returned wrapped.  When it hits the read of the start counter, the end
    counter is not read at all; when the start counter was read (as a value
    or as absent), a failure of the second read is returned the same way. *)
Theorem GetTickNumbers_backend_failure m e fs :
  isRedisNil (Cause e) = false ->
  (faults (dbStorage m) = Some e :: fs ->
     GetTickNumbers m
     = (Err (wrapped "" e),
        mkECB (mkStorage (db (dbStorage m)) fs)
          (mutationSet m) (pendingArchIDs m)))
  /\ (forall s, faults (dbStorage m) = None :: Some e :: fs ->
        counterAt (db (dbStorage m)) storageStartTickKey = Some s ->
        GetTickNumbers m
        = (Err (wrapped "" e),
           mkECB (mkStorage (db (dbStorage m)) fs)
             (mutationSet m) (pendingArchIDs m))).
Proof.
  intros He. destruct m as [[d fs0] ms pa]. cbn. split.
  - intros ->.
    unfold GetTickNumbers, bind, readTick, onStorage, GetUInt64, nextFault.
    cbn. by rewrite He.
  - intros s -> Hs.
    unfold GetTickNumbers, bind, readTick, onStorage, GetUInt64, nextFault.
    cbn. unfold counterAt in Hs.
    destruct (d !! storageStartTickKey) as [[n|b]|]; [|done|];
      cbn; by rewrite He.
Qed.

(** X3: [Recover] only reads: in every outcome the store (the journal and the
    counters with it), the mutation set and [pendingArchIDs] are as before.
    In particular a tick that was in flight still is: only [FinalizeTick]
    closes the gap between the counters. *)
Theorem Recover_reads_only txs m :
  let m' := snd (Recover HashHex codecDecode txs m) in
  db (dbStorage m') = db (dbStorage m)
  /\ mutationSet m' = mutationSet m
  /\ pendingArchIDs m' = pendingArchIDs m
  /\ tickNumbers m' = tickNumbers m
  /\ (inFlight m -> inFlight m').
Proof.
  intros m'.
  assert (db (dbStorage m') = db (dbStorage m)
          /\ mutationSet m' = mutationSet m
          /\ pendingArchIDs m' = pendingArchIDs m) as (Hd & Hm & Hp).
  { subst m'. destruct m as [[d fs] ms pa].
    unfold Recover, bind, wrapErr, onStorage, lift, GetBytes, nextFault.
    cbn. break_all; done. }
  assert (tickNumbers m' = tickNumbers m) as Ht by by apply tickNumbers_db.
  repeat split; [done..|]. intros [n Hn]. exists n. congruence.
Qed.

Lemma indexByID_last txs (idToTx : gmap MessageID (Message any)) id :
  indexByID txs idToTx !! id =
  match last (filter (fun tx => ID tx = id) txs) with
  | Some tx => Some tx
  | None => idToTx !! id
  end.
Proof.
  revert idToTx. induction txs as [|tx txs IH]; intros idToTx; [done|].
  cbn [indexByID]. rewrite IH.
  destruct (decide (ID tx = id)) as [Heq|Hne].
  - rewrite filter_cons_True by done. rewrite last_cons.
    destruct (last (filter _ txs)); [done|].
    subst id. by rewrite lookup_insert_eq.
  - rewrite filter_cons_False by done.
    destruct (last (filter _ txs)); [done|]. by rewrite lookup_insert_ne.
Qed.

(** X4: When several descriptors of the list passed to [Recover] have one ID,
    the map [idToTx] keeps the last of them, and it has no entry for an ID
    that no descriptor of the list has. *)
Theorem descriptor_lookup_last_wins txs id :
  indexByID txs ∅ !! id = last (filter (fun tx => ID tx = id) txs).
Proof.
  rewrite indexByID_last. by destruct (last _).
Qed.

Lemma indexByID_key txs k tx :
  indexByID txs ∅ !! k = Some tx -> ID tx = k /\ tx ∈ txs.
Proof.
  rewrite indexByID_last, lookup_empty.
  destruct (last (filter (fun tx0 => ID tx0 = k) txs)) as [tx0|] eqn:Hlast;
    [|done].
  intros [= ->]. revert Hlast.
  intros H%last_Some_elem_of. by apply list_elem_of_filter in H.
Qed.

Lemma rebuildPool_inv (idToTx : gmap MessageID (Message any)) pending
    pool pool' :
  (forall k tx, idToTx !! k = Some tx -> ID tx = k) ->
  rebuildPool HashHex idToTx pending pool = Ok pool' ->
  forall id, exists new,
    ForID pool' id = ForID pool id ++ new
    /\ Forall2 (recovers HashHex idToTx id) new
         (filter (fun p => TypeID p = id) pending).
Proof.
  intros Hkey. revert pool.
  induction pending as [|p pending IH]; intros pool; cbn [rebuildPool].
  - intros [= <-] id. exists []. by rewrite app_nil_r.
  - destruct (idToTx !! TypeID p) as [tx|] eqn:Hl; [|done].
    destruct (Decode tx (Data p)) as [v|e|] eqn:Hd; [|done..].
    pose proof (Hkey _ _ Hl) as Hid.
    intros H id. destruct (IH _ H id) as (new & -> & Hnew).
    rewrite ForID_AddTransaction.
    destruct (decide (id = ID tx)) as [Heq|Hne].
    + subst id. rewrite filter_cons_True by congruence.
      eexists (_ :: new). split; [by rewrite <- app_assoc|].
      constructor; [|done]. exists tx. cbn.
      repeat split; [congruence|done..].
    + rewrite filter_cons_False by congruence. by exists new.
Qed.

(** X5: What [Recover] returns, for any journal: under every message type the
    pool holds one transaction for each journal record of that type, in
    journal order, with the payload decoded by the descriptor registered
    under the type, the source transaction of the record, and the hash the
    pool computes from it (the hash stored in the record is not used). *)
Theorem Recover_groups_by_type txs m bz pending pool' :
  faults (dbStorage m) = [] ->
  db (dbStorage m) !! storagePendingTransactionKey = Some (VBytes bz) ->
  codecDecode bz = Ok pending ->
  fst (Recover HashHex codecDecode txs m) = Ok pool' ->
  forall id,
    Forall2 (recovers HashHex (indexByID txs ∅) id) (ForID pool' id)
      (filter (fun p => TypeID p = id) pending).
Proof.
  intros Hf Hj Hd. rewrite Recover_answered, Hj, Hd by done.
  intros H id.
  assert (forall k tx, indexByID txs ∅ !! k = Some tx -> ID tx = k) as Hkey.
  { intros k tx Hk. by apply indexByID_key in Hk as [? _]. }
  destruct (rebuildPool_inv _ _ _ _ Hkey H id) as (new & Hnew & HF).
  rewrite Hnew. unfold ForID at 1, New. by rewrite lookup_empty.
Qed.

(** X6: The errors of [Recover].  A failure of the read of the journal is
    returned wrapped; a failure to decode the journal value is returned as
    it is; and when a record fails to decode its payload, the records
    before it having been replayed, that error is returned as it is and the
    records after it are not looked at. *)
Theorem Recover_error_behaviour txs m :
  (forall e fs, faults (dbStorage m) = Some e :: fs ->
     fst (Recover HashHex codecDecode txs m) = Err (wrapped "" e))
  /\ (forall bz,
        faults (dbStorage m) = [] ->
        db (dbStorage m) !! storagePendingTransactionKey = Some (VBytes bz) ->
        (forall e, codecDecode bz = Err e ->
           fst (Recover HashHex codecDecode txs m) = Err e)
        /\ (forall pre p post tx e,
              codecDecode bz = Ok (pre ++ p :: post) ->
              (forall q, q ∈ pre ->
                 exists tx' v, indexByID txs ∅ !! TypeID q = Some tx'
                   /\ Decode tx' (Data q) = Ok v) ->
              indexByID txs ∅ !! TypeID p = Some tx ->
              Decode tx (Data p) = Err e ->
              fst (Recover HashHex codecDecode txs m) = Err e)).
Proof.
  split.
  - intros e fs Hf. destruct m as [[d fs0] ms pa]. cbn in Hf. subst fs0.
    by unfold Recover, bind, wrapErr, onStorage, lift, GetBytes, nextFault.
  - intros bz Hf Hj. rewrite Recover_answered, Hj by done. split.
    + by intros e ->.
    + intros pre p post tx e -> Hpre Hl Hd.
      generalize (@New any Transaction).
      induction pre as [|q pre IH]; intros acc; cbn [app rebuildPool].
      * by rewrite Hl, Hd.
      * destruct (Hpre q) as (tx' & v & -> & ->); [by left|].
        apply IH. intros q' Hq'. apply Hpre. by right.
Qed.

End TickReads.

Section TickRuns.

Context {any Transaction : Type}.
Variable HashHex : Transaction -> string.
Variable codecEncode : list (pendingTransaction Transaction) -> result bytes.
Variable codecDecode : bytes -> result (list (pendingTransaction Transaction)).

Implicit Types (txs : list (Message any))
  (pool : gmap MessageID (list (TxData any Transaction)))
  (entries : list (Message any * TxData any Transaction))
  (acc pending : list (pendingTransaction Transaction))
  (m : EntityCommandBuffer).

Lemma encodeEntries_app entries1 entries2 acc :
  encodeEntries (entries1 ++ entries2) acc =
  match encodeEntries entries1 acc with
  | Ok acc' => encodeEntries entries2 acc'
  | Err e => Err e
  | Panic => Panic
  end.
Proof.
  revert acc. induction entries1 as [|[tx d] l IH]; intros acc; [done|].
  cbn. by destruct (Encode tx (Msg d)).
Qed.

Lemma encodeForType_entries (tx : Message any)
    (currList : list (TxData any Transaction)) acc :
  encodeForType tx currList acc
  = encodeEntries ((fun d => (tx, d)) <$> currList) acc.
Proof.
  revert acc. induction currList as [|d l IH]; intros acc; [done|].
  cbn. by destruct (Encode tx (Msg d)).
Qed.

(** The nested loops are one pass over the journalled entries. *)
Lemma collectPending_entries txs pool acc :
  collectPending txs pool acc = encodeEntries (journalled txs pool) acc.
Proof.
  revert acc. induction txs as [|tx txs IH]; intros acc; [done|].
  unfold journalled. cbn [collectPending flat_map]. fold (journalled txs pool).
  rewrite encodeEntries_app, encodeForType_entries.
  by destruct (encodeEntries _ acc).
Qed.

Lemma encodeEntries_complete entries acc :
  Forall (fun e => exists b, Encode (fst e) (Msg (snd e)) = Ok b) entries ->
  exists pending, encodeEntries entries acc = Ok pending.
Proof.
  intros H. revert acc.
  induction H as [|[tx d] l [b Hb] _ IH]; intros acc; cbn in *.
  - by exists acc.
  - rewrite Hb. apply IH.
Qed.

Lemma encodeEntries_first_error pre (tx : Message any)
    (d : TxData any Transaction) post acc e :
  Forall (fun e => exists b, Encode (fst e) (Msg (snd e)) = Ok b) pre ->
  Encode tx (Msg d) = Err e ->
  encodeEntries (pre ++ (tx, d) :: post) acc = Err e.
Proof.
  intros Hpre He. rewrite encodeEntries_app.
  destruct (encodeEntries_complete pre acc Hpre) as [acc' ->].
  cbn. by rewrite He.
Qed.

(** [StartNextTick] when the backend answers every call. *)
Lemma StartNextTick_answered txs pool m :
  faults (dbStorage m) = [] ->
  StartNextTick codecEncode txs pool m =
  match collectPending txs pool [] with
  | Ok pending =>
      match codecEncode pending with
      | Ok buf =>
          match applyCommands [CSet storagePendingTransactionKey buf;
                               CIncr storageStartTickKey] (db (dbStorage m))
          with
          | Some d' =>
              (Ok tt, mkECB (mkStorage d' []) (mutationSet m) (pendingArchIDs m))
          | None =>
              (Err (wrapped "failed to end transaction"
                      (backendError "transaction failed")), m)
          end
      | Err e =>
          (Err (wrapped "failed to add pending transaction to pipe" e), m)
      | Panic => (Panic, m)
      end
  | Err e => (Err (wrapped "failed to add pending transaction to pipe" e), m)
  | Panic => (Panic, m)
  end.
Proof.
  destruct m as [[d fs] ms pa]. cbn. intros ->.
  unfold StartNextTick, addPendingTransactionToPipe, bind, wrapErr, onStorage,
    lift, StartTransaction, pipeSet, pipeIncr, enqueue, EndTransaction,
    nextFault.
  cbn. destruct (collectPending txs pool []) as [pending|e|]; cbn; [|done..].
  destruct (codecEncode pending) as [buf|e|]; cbn; [|done..].
  by destruct (applyCommands _ d).
Qed.

Lemma start_commands_apply buf d s :
  counterAt d storageStartTickKey = Some s ->
  s + 1 < uint64Limit ->
  applyCommands [CSet storagePendingTransactionKey buf;
                 CIncr storageStartTickKey] d
  = Some (<[storageStartTickKey := VUInt (s + 1)]>
            (<[storagePendingTransactionKey := VBytes buf]> d)).
Proof.
  intros Hs Hlt. rewrite applyCommands_cons. cbn [applyCommand].
  rewrite applyCommands_single. unfold applyCommand.
  rewrite lookup_insert_ne by done. unfold counterAt in Hs.
  destruct (d !! storageStartTickKey) as [[n|b]|]; simplify_eq; [|done].
  by rewrite decide_True.
Qed.

(** X7: [StartNextTick] succeeds whenever the backend answers, every pool
    transaction under a descriptor's ID encodes, the journal encodes, and
    the start counter can be incremented; the store is then the former one
    with the journal key set to the encoded records and the start counter
    one greater, and the buffer is untouched. *)
Theorem StartNextTick_succeeds txs pool m s :
  faults (dbStorage m) = [] ->
  Forall (fun e => exists b, Encode (fst e) (Msg (snd e)) = Ok b)
    (journalled txs pool) ->
  (forall l, exists buf, codecEncode l = Ok buf) ->
  counterAt (db (dbStorage m)) storageStartTickKey = Some s ->
  s + 1 < uint64Limit ->
  exists pending buf,
    collectPending txs pool [] = Ok pending
    /\ codecEncode pending = Ok buf
    /\ StartNextTick codecEncode txs pool m
       = (Ok tt,
          mkECB
            (mkStorage
               (<[storageStartTickKey := VUInt (s + 1)]>
                  (<[storagePendingTransactionKey := VBytes buf]>
                     (db (dbStorage m)))) [])
            (mutationSet m) (pendingArchIDs m)).
Proof.
  intros Hf Henc Hcodec Hs Hlt.
  destruct (encodeEntries_complete _ [] Henc) as [pending Hp].
  rewrite <- collectPending_entries in Hp.
  destruct (Hcodec pending) as [buf Hb].
  exists pending, buf. repeat split; [done..|].
  rewrite StartNextTick_answered, Hp, Hb by done.
  by rewrite (start_commands_apply _ _ _ Hs Hlt).
Qed.

(** X8: When a pool transaction fails to encode, those before it in journal
    order having encoded, [StartNextTick] returns that error wrapped as a
    failure to add the pending transactions, and nothing is changed: no
    later transaction is encoded and no command reaches the store. *)
Theorem StartNextTick_encode_error txs pool m pre tx d post e :
  faults (dbStorage m) = [] ->
  journalled txs pool = pre ++ (tx, d) :: post ->
  Forall (fun e => exists b, Encode (fst e) (Msg (snd e)) = Ok b) pre ->
  Encode tx (Msg d) = Err e ->
  StartNextTick codecEncode txs pool m
  = (Err (wrapped "failed to add pending transaction to pipe" e), m).
Proof.
  intros Hf Hj Hpre He.
  rewrite StartNextTick_answered, collectPending_entries, Hj by done.
  by rewrite (encodeEntries_first_error _ _ _ _ _ _ Hpre He).
Qed.

Lemma queueMutations_answered ms pipe m :
  faults (dbStorage m) = [] ->
  queueMutations ms pipe m
  = (Ok (mkPipe (queued pipe ++ (mutationCommand <$> ms))), m).
Proof.
  destruct m as [[d fs] ms0 pa]. cbn. intros ->.
  revert pipe. induction ms as [|mu ms IH]; intros [q].
  - cbn. by rewrite app_nil_r.
  - destruct mu as [k v|k]; cbn [queueMutations];
      unfold bind, onStorage, pipeSet, pipeDelete, enqueue, nextFault;
      cbn; rewrite IH; cbn; by rewrite <- app_assoc.
Qed.

(** [FinalizeTick] when no call fails. *)
Lemma FinalizeTick_answered m :
  faults (dbStorage m) = [] ->
  FinalizeTick m =
  match applyCommands ((mutationCommand <$> mutationSet m)
                       ++ [CIncr storageEndTickKey]) (db (dbStorage m)) with
  | Some d' => (Ok tt, mkECB (mkStorage d' []) [] [])
  | None =>
      (Err (wrapped "failed to end transaction"
              (backendError "transaction failed")), m)
  end.
Proof.
  intros Hf. unfold FinalizeTick, makePipeOfRedisCommands.
  unfold bind at 1 2 3 4. unfold wrapErr at 1 2 3 4. unfold bind at 1.
  destruct m as [[d fs] ms pa]. cbn in Hf. subst fs.
  unfold onStorage at 1. unfold StartTransaction, nextFault.
  cbn [dbStorage mutationSet pendingArchIDs db faults].
  rewrite queueMutations_answered by done.
  unfold onStorage, pipeIncr, enqueue, EndTransaction, clearPendingArchIDs,
    DiscardPending, nextFault.
  cbn. by destruct (applyCommands _ d).
Qed.

Lemma finalize_commands_apply ms d e :
  avoidsTickKeys ms ->
  counterAt d storageEndTickKey = Some e ->
  e + 1 < uint64Limit ->
  exists d',
    applyCommands ((mutationCommand <$> ms) ++ [CIncr storageEndTickKey]) d
    = Some d'.
Proof.
  intros Hms He Hlt. rewrite applyCommands_app.
  destruct (applyCommands_mutations ms d Hms) as (d1 & -> & Hd1).
  rewrite applyCommands_single. unfold applyCommand.
  unfold counterAt in He. rewrite Hd1 by done.
  destruct (d !! storageEndTickKey) as [[n|b]|]; simplify_eq; [|by eauto].
  rewrite decide_True by done. by eauto.
Qed.

(** X9: A tick in flight can always be closed.  After a successful
    [StartNextTick] issued when [start == end], whatever mutations of
    game-state keys the simulation has recorded, a [FinalizeTick] that no
    failure hits succeeds: the counters are equal again, one greater than
    before the tick, the journal is still the one the tick wrote, and the
    buffer is empty. *)
Theorem in_flight_tick_can_be_finalized txs pool m m1 ms archIDs n :
  tickNumbers m = Ok (n, n) ->
  StartNextTick codecEncode txs pool m = (Ok tt, m1) ->
  avoidsTickKeys ms ->
  exists m2,
    FinalizeTick (mkECB (mkStorage (db (dbStorage m1)) []) ms archIDs)
    = (Ok tt, m2)
    /\ tickNumbers m2 = Ok (n + 1, n + 1)
    /\ db (dbStorage m2) !! storagePendingTransactionKey
       = db (dbStorage m1) !! storagePendingTransactionKey
    /\ mutationSet m2 = []
    /\ pendingArchIDs m2 = [].
Proof.
  intros Hn Hstart Hms.
  apply tickNumbers_Ok in Hn as [Hs He].
  apply StartNextTick_inv in Hstart
    as (_ & _ & pending & buf & _ & _ & Hc).
  rewrite applyCommands_cons in Hc. cbn [applyCommand] in Hc.
  rewrite applyCommands_single in Hc.
  apply applyCommand_incr in Hc as (k & Hk & Hk' & Hlt & Hframe).
  assert (k = n) as ->.
  { revert Hk Hs. unfold counterAt. rewrite lookup_insert_ne by done.
    congruence. }
  assert (counterAt (db (dbStorage m1)) storageEndTickKey = Some n) as He1.
  { revert He. unfold counterAt. rewrite Hframe by done.
    by rewrite lookup_insert_ne. }
  destruct (finalize_commands_apply ms (db (dbStorage m1)) n Hms He1 Hlt)
    as [d' Hd'].
  eexists. rewrite FinalizeTick_answered by done.
  cbn [dbStorage mutationSet db]. rewrite Hd'. split; [done|].
  apply finalize_commands_inv in Hd' as (Hs' & (j & Hj & Hj') & Hp); [|done].
  cbn [dbStorage mutationSet pendingArchIDs db]. repeat split; [|done].
  apply tickNumbers_Ok. cbn [dbStorage db]. split.
  - unfold counterAt at 1. rewrite Hs'. exact Hk'.
  - congruence.
Qed.

(** X10: [FinalizeTick] never touches the journal: whatever it returns, the
    journal key holds what it held (the mutation set writing game-state
    keys only), so a [Recover] issued after a completed tick returns what
    it would have returned before the tick was finalized. *)
Theorem FinalizeTick_keeps_journal txs m :
  avoidsTickKeys (mutationSet m) ->
  db (dbStorage (snd (FinalizeTick m))) !! storagePendingTransactionKey
  = db (dbStorage m) !! storagePendingTransactionKey
  /\ fst (Recover HashHex codecDecode txs (withoutFaults (snd (FinalizeTick m))))
     = fst (Recover HashHex codecDecode txs (withoutFaults m)).
Proof.
  intros Hms.
  assert (db (dbStorage (snd (FinalizeTick m))) !! storagePendingTransactionKey
          = db (dbStorage m) !! storagePendingTransactionKey) as Hj.
  { destruct (FinalizeTick m) as [r m'] eqn:E. cbn [snd].
    apply FinalizeTick_inv in E. destruct r as [u|e|]; [| |done].
    - destruct E as (Hc & _).
      by apply finalize_commands_inv in Hc as (_ & _ & Hp).
    - destruct E as [(e0 & _ & Hc & _)|(_ & -> & _)]; [|done].
      by apply finalize_commands_inv in Hc as (_ & _ & Hp). }
  split; [done|].
  rewrite !(Recover_answered HashHex codecDecode) by done.
  cbn [withoutFaults dbStorage db]. by rewrite Hj.
Qed.

(** X11: A tick started on a pool that holds nothing under any descriptor's ID
    (an empty pool in particular) journals the empty sequence, and
    [Recover], with any list of descriptors, then returns the empty pool;
    the codec's decoder being a left inverse of its encoder. *)
Theorem empty_pool_round_trip txs txs' pool m m' :
  (forall l bz, codecEncode l = Ok bz -> codecDecode bz = Ok l) ->
  (forall tx, tx ∈ txs -> ForID pool (ID tx) = []) ->
  StartNextTick codecEncode txs pool m = (Ok tt, m') ->
  (exists bz, codecEncode [] = Ok bz
     /\ db (dbStorage m') !! storagePendingTransactionKey = Some (VBytes bz))
  /\ fst (Recover HashHex codecDecode txs' (withoutFaults m')) = Ok New.
Proof.
  intros Hcodec Hempty H.
  apply StartNextTick_inv in H as (_ & _ & pending & buf & Hp & Hb & Hc).
  apply start_commands_inv in Hc as (Hj & _).
  assert (journalled txs pool = []) as Hnil.
  { clear -Hempty. induction txs as [|tx txs IH]; [done|].
    unfold journalled. cbn [flat_map]. fold (journalled txs pool).
    rewrite Hempty by left. cbn. apply IH. intros tx' Htx'.
    apply Hempty. by right. }
  rewrite collectPending_entries, Hnil in Hp. cbn in Hp. simplify_eq.
  split; [by eauto|].
  rewrite Recover_answered by done. cbn [withoutFaults dbStorage db].
  by rewrite Hj, (Hcodec _ _ Hb).
Qed.

(** In every reachable state the start counter is still 0 or the journal
    key holds the encoding of some sequence of records. *)
Lemma reachable_journal m :
  reachable (any := any) codecEncode inFlight m ->
  counterAt (db (dbStorage m)) storageStartTickKey = Some 0
  \/ exists pending buf,
       codecEncode pending = Ok buf
       /\ db (dbStorage m) !! storagePendingTransactionKey
          = Some (VBytes buf).
Proof.
  intros Hreach.
  induction Hreach
    as [fs|m txs pool Hr IH Hidle|m Hr IH Hfl|m ms archIDs Hr IH Hms|m fs Hr IH];
    [by left| | |done..].
  - destruct (StartNextTick codecEncode txs pool m) as [r m'] eqn:E.
    cbn [snd]. apply StartNextTick_inv in E as (_ & _ & Hd).
    destruct r as [[]|e|]; [|by rewrite Hd..].
    destruct Hd as (pending & buf & _ & Hb & Hc).
    apply start_commands_inv in Hc as (Hj & _). right. eauto.
  - pose proof (reachable_avoidsTickKeys _ _ _ Hr) as Hm.
    destruct (FinalizeTick m) as [r m'] eqn:E. cbn [snd].
    assert (db (dbStorage m') !! storageStartTickKey
            = db (dbStorage m) !! storageStartTickKey
            /\ db (dbStorage m') !! storagePendingTransactionKey
               = db (dbStorage m) !! storagePendingTransactionKey)
      as [Hs Hj].
    { apply FinalizeTick_inv in E. destruct r as [u|e|]; [| |done].
      - destruct E as (Hc & _).
        by apply finalize_commands_inv in Hc as (? & _ & ?).
      - destruct E as [(e0 & _ & Hc & _)|(_ & -> & _)]; [|done].
        by apply finalize_commands_inv in Hc as (? & _ & ?). }
    unfold counterAt. rewrite Hs, Hj. exact IH.
Qed.

(** X12: Whenever a tick is in flight in a state the protocol can reach, the
    journal is there: the journal key holds the encoding of a sequence of
    records, so that (the codec's decoder being a left inverse of its
    encoder) the read and the decoding of the journal in [Recover] do not
    fail, and [Recover] returns what the replay of those records gives. *)
Theorem in_flight_journal_is_readable txs m :
  reachable (any := any) codecEncode inFlight m ->
  inFlight m ->
  exists pending buf,
    codecEncode pending = Ok buf
    /\ db (dbStorage m) !! storagePendingTransactionKey = Some (VBytes buf)
    /\ ((forall l bz, codecEncode l = Ok bz -> codecDecode bz = Ok l) ->
        fst (Recover HashHex codecDecode txs (withoutFaults m))
        = rebuildPool HashHex (indexByID txs ∅) pending New).
Proof.
  intros Hreach [n Hn].
  apply tickNumbers_Ok in Hn as [Hs _].
  destruct (reachable_journal m Hreach) as [H0|(pending & buf & Hb & Hj)].
  - rewrite Hs in H0. injection H0 as H0. lia.
  - exists pending, buf. repeat split; [done..|].
    intros Hcodec. rewrite Recover_answered by done.
    cbn [withoutFaults dbStorage db]. by rewrite Hj, (Hcodec _ _ Hb).
Qed.

Lemma rebuildPool_journal_exact (idToTx : gmap MessageID (Message any))
    pending entries pool :
  Forall2 journals pending entries ->
  (forall e, e ∈ entries ->
     idToTx !! ID (fst e) = Some (fst e)
     /\ (forall v b, Encode (fst e) v = Ok b -> Decode (fst e) b = Ok v)
     /\ TxHash (snd e) = HashHex (Tx (snd e))) ->
  (forall id l, pool !! id = Some l -> l <> []) ->
  exists pool',
    rebuildPool HashHex idToTx pending pool = Ok pool'
    /\ (forall id,
          ForID pool' id
          = ForID pool id ++ (snd <$> filter (fun e => ID (fst e) = id) entries))
    /\ (forall id l, pool' !! id = Some l -> l <> []).
Proof.
  intros Hj. revert pool.
  induction Hj as [|p e ps es (Hid & _ & Htx & Henc) _ IH];
    intros pool Hes Hne.
  - exists pool. split; [done|]. split; [|done].
    intros id. by rewrite app_nil_r.
  - destruct (Hes e) as (Hlook & Hinv & Hhash); [by left|].
    cbn [rebuildPool]. rewrite Hid, Hlook, (Hinv _ _ Henc).
    destruct (IH (AddTransaction HashHex pool (ID (fst e)) (Msg (snd e)) (pTx p)))
      as (pool' & -> & Hpool' & Hne').
    { intros e' He'. apply Hes. by right. }
    { intros id l. unfold AddTransaction.
      destruct (decide (id = ID (fst e))) as [->|Hc].
      - rewrite lookup_insert_eq. intros [= <-]. by destruct (ForID pool _).
      - rewrite lookup_insert_ne by done. apply Hne. }
    exists pool'. split; [done|]. split; [|done]. intros id.
    rewrite Hpool', ForID_AddTransaction.
    assert (mkTxData (Msg (snd e)) (HashHex (pTx p)) (pTx p) = snd e) as ->.
    { rewrite Htx, <- Hhash. by destruct (snd e). }
    case_decide as Hc.
    + subst id. rewrite filter_cons_True by done.
      by rewrite fmap_cons, <- app_assoc.
    + by rewrite filter_cons_False.
Qed.

(** X13: The round trip through the journal is exact for a pool as
    [AddTransaction] builds it.  When [StartNextTick] succeeds on such a
    pool, with descriptors of pairwise distinct IDs that cover the message
    types of the pool, [Recover] with the same descriptors returns that very
    pool: the same types, transactions, hashes and order; the decoders of
    the codec and of the descriptors being left inverses of their
    encoders. *)
Theorem Recover_returns_the_pool txs pool m m' :
  (forall l bz, codecEncode l = Ok bz -> codecDecode bz = Ok l) ->
  (forall tx v b, tx ∈ txs -> Encode tx v = Ok b -> Decode tx b = Ok v) ->
  NoDup (ID <$> txs) ->
  (forall id, ForID pool id <> [] -> id ∈ ID <$> txs) ->
  builtByAdd HashHex pool ->
  StartNextTick codecEncode txs pool m = (Ok tt, m') ->
  fst (Recover HashHex codecDecode txs (withoutFaults m')) = Ok pool.
Proof.
  intros Hcodec Hdesc Hnd Hcover Hbuilt H.
  apply StartNextTick_inv in H as (_ & _ & pending & buf & Hp & Hb & Hc).
  apply start_commands_inv in Hc as (Hj & _).
  apply collectPending_inv in Hp as (new & -> & Hf). cbn in Hf.
  rewrite Recover_answered by done.
  cbn [withoutFaults dbStorage db]. rewrite Hj, (Hcodec _ _ Hb).
  cbn [app].
  destruct (rebuildPool_journal_exact (indexByID txs ∅) new
              (journalled txs pool) New Hf) as (pool' & -> & Hpool' & Hne').
  { intros e [He Hin]%journalled_types.
    split; [by apply indexByID_present|]. split; [intros v b; by apply Hdesc|].
    unfold ForID in Hin.
    destruct (pool !! ID (fst e)) as [l|] eqn:Hl;
      [|by apply elem_of_nil in Hin].
    destruct (Hbuilt _ _ Hl) as [_ Hall].
    by apply (proj1 (Forall_forall _ _) Hall). }
  { intros id l. unfold New. by rewrite lookup_empty. }
  f_equal. apply map_eq. intros id.
  specialize (Hpool' id). unfold ForID at 2 in Hpool'. unfold New in Hpool'.
  rewrite lookup_empty in Hpool'. cbn [default app] in Hpool'.
  rewrite journalled_filter in Hpool' by done.
  assert (ForID pool' id = ForID pool id) as Heq.
  { rewrite Hpool'. case_decide as Hin; [done|].
    destruct (ForID pool id) eqn:E; [done|].
    destruct Hin. apply Hcover. by rewrite E. }
  unfold ForID in Heq.
  destruct (pool' !! id) as [l'|] eqn:Hl', (pool !! id) as [l|] eqn:Hl;
    cbn in Heq.
  - by subst.
  - subst l'. by destruct (Hne' _ _ Hl').
  - subst l. by destruct (Hbuilt _ _ Hl) as [? _].
  - done.
Qed.

End TickRuns.

(** * Properties of the pre-block hook and of the store keys *)

Section PreBlockerProperties.

Context {State RegisterMsg TxMsg : Type}.
Variable ShardName : RegisterMsg -> string.
Variable quote : string -> string.
Variable Handler :
  RegisterMsg + TxMsg -> option (@MsgHandler State RegisterMsg TxMsg).

Implicit Types (regs : list RegisterMsg) (txs : list TxMsg) (ctx : State).

Lemma registerShards_app regs1 regs2 ctx :
  registerShards ShardName quote Handler (regs1 ++ regs2) ctx =
  match registerShards ShardName quote Handler regs1 ctx with
  | (Ok _, ctx1) => registerShards ShardName quote Handler regs2 ctx1
  | other => other
  end.
Proof.
  revert ctx. induction regs1 as [|r regs1 IH]; intros ctx; [done|].
  cbn. destruct (Handler (inl r)) as [h|]; [|done].
  by destruct (h ctx (inl r)) as [[err|] ctx'].
Qed.

Lemma sequenceTxs_app (handler : option (@MsgHandler State RegisterMsg TxMsg))
    txs1 txs2 ctx :
  sequenceTxs handler (txs1 ++ txs2) ctx =
  match sequenceTxs handler txs1 ctx with
  | (Ok _, ctx1) => sequenceTxs handler txs2 ctx1
  | other => other
  end.
Proof.
  revert ctx. induction txs1 as [|t txs1 IH]; intros ctx; [done|].
  cbn. destruct handler as [h|]; [|done].
  by destruct (h ctx (inr t)) as [[err|] ctx'].
Qed.

Lemma registerShards_never_fail regs ctx :
  Forall (fun r => exists h, Handler (inl r) = Some h
                     /\ forall c, fst (h c (inl r)) = None) regs ->
  registerShards ShardName quote Handler regs ctx
  = (Ok tt, registered Handler regs ctx).
Proof.
  intros H. revert ctx.
  induction H as [|r regs (h & Hh & Hok) _ IH]; intros ctx; [done|].
  cbn. rewrite Hh. specialize (Hok ctx).
  destruct (h ctx (inl r)) as [[err|] ctx'] eqn:E; cbn in Hok; [done|].
  rewrite IH. unfold registered. cbn. by rewrite ?Hh, ?E.
Qed.

Lemma sequenceTxs_never_fail (h : @MsgHandler State RegisterMsg TxMsg) txs ctx :
  Forall (fun t => forall c, fst (h c (inr t)) = None) txs ->
  sequenceTxs (Some h) txs ctx = (Ok tt, handled h (inr <$> txs) ctx).
Proof.
  intros H. revert ctx.
  induction H as [|t txs Hok _ IH]; intros ctx; [done|].
  cbn. specialize (Hok ctx).
  destruct (h ctx (inr t)) as [[err|] ctx'] eqn:E; cbn in Hok; [done|].
  rewrite IH. unfold handled. cbn. by rewrite ?E.
Qed.

(** X14: When no handler fails, [preBlocker] handles every registration, in
    order, each by the handler the router gives for it, and then every
    transaction message, in order, all by the handler the router gives for
    the first of them; it returns an empty response and no error. *)
Theorem preBlocker_registers_then_sequences txs regs ctx first rest h :
  Forall (fun r => exists h, Handler (inl r) = Some h
                     /\ forall c, fst (h c (inl r)) = None) regs ->
  txs = first :: rest ->
  Handler (inr first) = Some h ->
  Forall (fun t => forall c, fst (h c (inr t)) = None) txs ->
  preBlocker ShardName quote Handler txs regs ctx
  = (Returned (Some (mkResponsePreBlock false)) None,
     handled h (inr <$> txs) (registered Handler regs ctx)).
Proof.
  intros Hregs -> Hh Htxs. unfold preBlocker.
  rewrite registerShards_never_fail by done.
  rewrite Hh. by rewrite sequenceTxs_never_fail.
Qed.

(** X15: A registration that fails ends the hook: the registrations before it
    having been handled, the error of its handler is returned, wrapped with
    the quoted name of the shard, together with a nil response; the
    registrations after it and all the transaction messages are left
    unhandled. *)
Theorem preBlocker_registration_failure txs pre r post ctx h err ctx' :
  Forall (fun r => exists h, Handler (inl r) = Some h
                     /\ forall c, fst (h c (inl r)) = None) pre ->
  Handler (inl r) = Some h ->
  h (registered Handler pre ctx) (inl r) = (Some err, ctx') ->
  preBlocker ShardName quote Handler txs (pre ++ r :: post) ctx
  = (Returned None
       (Some (wrapped ("failed to register new shard with namespace "
                       ++ quote (ShardName r))%string err)),
     ctx').
Proof.
  intros Hpre Hh Herr. unfold preBlocker.
  rewrite registerShards_app, registerShards_never_fail by done.
  cbn [registerShards]. by rewrite Hh, Herr.
Qed.

(** X16: A transaction message that fails ends the hook as well, the messages
    after it being left unhandled; the error of the handler, wrapped, then
    comes with the empty response, not with nil. *)
Theorem preBlocker_sequencing_failure first pre t post regs ctx h err ctx' :
  Forall (fun r => exists h, Handler (inl r) = Some h
                     /\ forall c, fst (h c (inl r)) = None) regs ->
  head (pre ++ [t]) = Some first ->
  Handler (inr first) = Some h ->
  Forall (fun t => forall c, fst (h c (inr t)) = None) pre ->
  h (handled h (inr <$> pre) (registered Handler regs ctx)) (inr t)
  = (Some err, ctx') ->
  preBlocker ShardName quote Handler (pre ++ t :: post) regs ctx
  = (Returned (Some (mkResponsePreBlock false))
       (Some (wrapped "failed to process game shard tx data submission" err)),
     ctx').
Proof.
  intros Hregs Hfirst Hh Hpre Herr. unfold preBlocker.
  rewrite registerShards_never_fail by done.
  assert (exists rest, pre ++ t :: post = first :: rest) as [rest Hrest].
  { destruct pre as [|p pre]; cbn in Hfirst |- *; simplify_eq; eauto. }
  rewrite Hrest, Hh, <- Hrest.
  rewrite sequenceTxs_app, sequenceTxs_never_fail by done.
  cbn [sequenceTxs]. by rewrite Herr.
Qed.

(** X17: What [preBlocker] returns, in every case: a nil response only together
    with an error; a response that never reports changed consensus
    parameters; and without an error always the empty response. *)
Theorem preBlocker_response txs regs ctx res err ctx' :
  preBlocker ShardName quote Handler txs regs ctx = (Returned res err, ctx') ->
  (res = None -> exists e, err = Some e)
  /\ (forall r, res = Some r -> ConsensusParamsChanged r = false)
  /\ (err = None -> res = Some (mkResponsePreBlock false)).
Proof.
  assert (forall e : option error,
            (Some (mkResponsePreBlock false) = None -> exists e', e = Some e')
            /\ (forall r, Some (mkResponsePreBlock false) = Some r ->
                  ConsensusParamsChanged r = false)
            /\ (e = None ->
                Some (mkResponsePreBlock false)
                = Some (mkResponsePreBlock false))) as Hres.
  { intros e. split; [done|]. split; [|done]. by intros r [= <-]. }
  unfold preBlocker.
  destruct (registerShards ShardName quote Handler regs ctx)
    as [[[]|e|] ctx1].
  - destruct txs as [|first rest].
    + intros [= <- <- <-]. apply Hres.
    + destruct (sequenceTxs _ (first :: rest) ctx1) as [[[]|e|] ctx2];
        [| |done]; intros [= <- <- <-]; apply Hres.
  - intros [= <- <- <-]. split; [by eauto|]. split; done.
  - done.
Qed.

End PreBlockerProperties.

(** X18: The router is asked once for the transaction messages: [preBlocker]
    gives the same outcome with any two routers that agree on the
    registrations and on the first transaction message, whatever they
    answer for the other transaction messages. *)
Theorem preBlocker_routes_first_tx_only {State RegisterMsg TxMsg : Type}
    (ShardName : RegisterMsg -> string) (quote : string -> string)
    (Handler Handler' :
       RegisterMsg + TxMsg -> option (@MsgHandler State RegisterMsg TxMsg))
    (first : TxMsg) (rest : list TxMsg) (regs : list RegisterMsg)
    (ctx : State) :
  (forall r, Handler' (inl r) = Handler (inl r)) ->
  Handler' (inr first) = Handler (inr first) ->
  preBlocker ShardName quote Handler' (first :: rest) regs ctx
  = preBlocker ShardName quote Handler (first :: rest) regs ctx.
Proof.
  intros Hregs Hfirst. unfold preBlocker. rewrite Hfirst.
  assert (forall l c, registerShards ShardName quote Handler' l c
                      = registerShards ShardName quote Handler l c) as ->;
    [|done].
  induction l as [|r l IH]; intros c; [done|].
  cbn. rewrite Hregs. destruct (Handler (inl r)) as [h|]; [|done].
  by destruct (h c (inl r)) as [[err|] c'].
Qed.

Section StoreKeysProperties.

Context {KVStoreKey OtherStoreKey : Type}.
Variable Name : KVStoreKey -> string.

Lemma collectKVStoreKeys_lookup
    (storeKeys : list (KVStoreKey + OtherStoreKey))
    (keys : gmap string KVStoreKey) n :
  collectKVStoreKeys Name storeKeys keys !! n =
  match last (filter (fun kv => Name kv = n) (kvKeysOf storeKeys)) with
  | Some kv => Some kv
  | None => keys !! n
  end.
Proof.
  revert keys. induction storeKeys as [|[kv|o] l IH]; intros keys; [done| |].
  - cbn [collectKVStoreKeys]. rewrite IH. unfold kvKeysOf. cbn [omap list_omap].
    fold (kvKeysOf l).
    destruct (decide (Name kv = n)) as [Heq|Hne].
    + rewrite filter_cons_True by done. rewrite last_cons.
      destruct (last (filter _ (kvKeysOf l))); [done|].
      subst n. by rewrite lookup_insert_eq.
    + rewrite filter_cons_False by done.
      destruct (last (filter _ (kvKeysOf l))); [done|].
      by rewrite lookup_insert_ne.
  - cbn [collectKVStoreKeys]. by rewrite IH.
Qed.

(** X19: [kvStoreKeys] maps a name to the last KV store key of that name among
    the store keys, and to nothing when there is none: every key is filed
    under its own name, keys of other kinds are left out, and of two KV
    store keys with one name the later one replaces the earlier. *)
Theorem kvStoreKeys_lookup (storeKeys : list (KVStoreKey + OtherStoreKey)) n :
  kvStoreKeys Name storeKeys !! n
  = last (filter (fun kv => Name kv = n) (kvKeysOf storeKeys))
  /\ (forall kv, kvStoreKeys Name storeKeys !! n = Some kv ->
        Name kv = n /\ inl kv ∈ storeKeys)
  /\ (forall kv, inl kv ∈ storeKeys ->
        is_Some (kvStoreKeys Name storeKeys !! Name kv)).
Proof.
  assert (kvStoreKeys Name storeKeys !! n
          = last (filter (fun kv => Name kv = n) (kvKeysOf storeKeys))) as Hl.
  { unfold kvStoreKeys. rewrite collectKVStoreKeys_lookup, lookup_empty.
    by destruct (last _). }
  assert (forall kv, kv ∈ kvKeysOf storeKeys <-> inl kv ∈ storeKeys) as Hin.
  { intros kv. unfold kvKeysOf. rewrite list_elem_of_omap. split.
    - intros ([kv'|o] & Hk & [= ->]). done.
    - intros Hk. by exists (inl kv). }
  split; [done|]. split.
  - intros kv. rewrite Hl. intros H%last_Some_elem_of.
    apply list_elem_of_filter in H as [Hn Hk]. by apply Hin in Hk.
  - intros kv Hk. unfold kvStoreKeys.
    rewrite collectKVStoreKeys_lookup, lookup_empty.
    destruct (last (filter (fun kv0 => Name kv0 = Name kv)
                      (kvKeysOf storeKeys))) eqn:E; [by eauto|].
    apply last_None in E.
    assert (kv ∈ filter (fun kv0 => Name kv0 = Name kv) (kvKeysOf storeKeys))
      as Hf by (apply list_elem_of_filter; split; [done|by apply Hin]).
    rewrite E in Hf. by apply elem_of_nil in Hf.
Qed.

End StoreKeysProperties.

(** ** The further properties on the concrete runs *)

Import MoreScenario.

Lemma GetTickNumbers_backend_failure_witness :
  isRedisNil (Cause timeout) = false
  /\ GetTickNumbers firstCallFails
     = (Err (wrapped "" timeout),
        mkECB (mkStorage (db (dbStorage started)) []) [] [])
  /\ GetTickNumbers secondCallFails
     = (Err (wrapped "" timeout),
        mkECB (mkStorage (db (dbStorage started)) []) [] []).
Proof.
  assert (isRedisNil (Cause timeout) = false) as He by reflexivity.
  split; [exact He|]. split.
  - exact (proj1 (GetTickNumbers_backend_failure firstCallFails timeout [] He)
             eq_refl).
  - apply (proj2 (GetTickNumbers_backend_failure secondCallFails timeout []
                    He) 1); [reflexivity|]. vm_compute. reflexivity.
Defined.

Lemma Recover_groups_by_type_witness :
  faults (dbStorage (withoutFaults started)) = []
  /\ db (dbStorage (withoutFaults started)) !! storagePendingTransactionKey
     = Some (VBytes startedJournal)
  /\ decode startedJournal = Ok startedRecords
  /\ fst (Recover hashHex decode descriptors (withoutFaults started))
     = Ok recoveredPool
  /\ forall id,
       Forall2 (recovers hashHex (indexByID descriptors ∅) id)
         (ForID recoveredPool id)
         (filter (fun p => TypeID p = id) startedRecords).
Proof.
  assert (db (dbStorage (withoutFaults started)) !! storagePendingTransactionKey
          = Some (VBytes startedJournal)) as Hj by (vm_compute; reflexivity).
  assert (decode startedJournal = Ok startedRecords) as Hd
    by (vm_compute; reflexivity).
  assert (fst (Recover hashHex decode descriptors (withoutFaults started))
          = Ok recoveredPool) as Hr by (vm_compute; reflexivity).
  split; [reflexivity|]. split; [exact Hj|]. split; [exact Hd|].
  split; [exact Hr|].
  exact (Recover_groups_by_type hashHex decode descriptors
           (withoutFaults started) startedJournal startedRecords recoveredPool
           eq_refl Hj Hd Hr).
Defined.

Lemma StartNextTick_succeeds_witness :
  faults (dbStorage (freshBuffer [])) = []
  /\ Forall (fun e => exists b, Encode (fst e) (Msg (snd e)) = Ok b)
       (journalled descriptors pool)
  /\ (forall l, exists buf, encode l = Ok buf)
  /\ counterAt (db (dbStorage (freshBuffer []))) storageStartTickKey = Some 0
  /\ 0 + 1 < uint64Limit
  /\ exists pending buf,
       collectPending descriptors pool [] = Ok pending
       /\ encode pending = Ok buf
       /\ StartNextTick encode descriptors pool (freshBuffer [])
          = (Ok tt,
             mkECB
               (mkStorage
                  (<[storageStartTickKey := VUInt (0 + 1)]>
                     (<[storagePendingTransactionKey := VBytes buf]>
                        (db (dbStorage (freshBuffer []))))) [])
               (mutationSet (freshBuffer [])) (pendingArchIDs (freshBuffer []))).
Proof.
  assert (Forall (fun e : Message Z * TxData Z string =>
                    exists b, Encode (fst e) (Msg (snd e)) = Ok b)
            (journalled descriptors pool)) as Henc.
  { apply Forall_forall. intros [tx d] [Htx _]%journalled_types.
    cbn in Htx. unfold descriptors in Htx.
    apply elem_of_cons in Htx as [->|Htx]; [by eexists|].
    apply elem_of_cons in Htx as [->|Htx]; [by eexists|].
    by apply elem_of_nil in Htx. }
  assert (forall l, exists buf, encode l = Ok buf) as Hcodec
    by (intros l; by eexists).
  assert (0 + 1 < uint64Limit) as Hlt by reflexivity.
  split; [reflexivity|]. split; [exact Henc|]. split; [exact Hcodec|].
  split; [reflexivity|]. split; [exact Hlt|].
  exact (StartNextTick_succeeds encode descriptors pool (freshBuffer []) 0
           eq_refl Henc Hcodec eq_refl Hlt).
Defined.

Lemma StartNextTick_encode_error_witness :
  let alice := mkTxData 5%Z "alice" "alice" in
  let carol := mkTxData (-3)%Z "carol" "carol" in
  let bob := mkTxData 7%Z "bob" "bob" in
  faults (dbStorage (freshBuffer [])) = []
  /\ journalled strictDescriptors pool
     = [(strictMessage 1, alice)] ++ (strictMessage 1, carol)
       :: [(intMessage 2, bob)]
  /\ Forall (fun e => exists b, Encode (fst e) (Msg (snd e)) = Ok b)
       [(strictMessage 1, alice)]
  /\ Encode (strictMessage 1) (Msg carol) = Err (codecError "negative payload")
  /\ StartNextTick encode strictDescriptors pool (freshBuffer [])
     = (Err (wrapped "failed to add pending transaction to pipe"
               (codecError "negative payload")), freshBuffer []).
Proof.
  intros alice carol bob.
  assert (journalled strictDescriptors pool
          = [(strictMessage 1, alice)] ++ (strictMessage 1, carol)
            :: [(intMessage 2, bob)]) as Hj by (vm_compute; reflexivity).
  assert (Forall (fun e : Message Z * TxData Z string =>
                    exists b, Encode (fst e) (Msg (snd e)) = Ok b)
            [(strictMessage 1, alice)]) as Hpre.
  { constructor; [by eexists|constructor]. }
  split; [reflexivity|]. split; [exact Hj|]. split; [exact Hpre|].
  split; [reflexivity|].
  exact (StartNextTick_encode_error encode strictDescriptors pool
           (freshBuffer []) [(strictMessage 1, alice)] (strictMessage 1) carol
           [(intMessage 2, bob)] (codecError "negative payload")
           eq_refl Hj Hpre eq_refl).
Defined.

Lemma in_flight_tick_can_be_finalized_witness :
  tickNumbers (freshBuffer []) = Ok (0, 0)
  /\ StartNextTick encode descriptors pool (freshBuffer []) = (Ok tt, started)
  /\ avoidsTickKeys (mutationSet (simulated []))
  /\ exists m2,
       FinalizeTick
         (mkECB (mkStorage (db (dbStorage started)) [])
            (mutationSet (simulated [])) [3%Z])
       = (Ok tt, m2)
       /\ tickNumbers m2 = Ok (0 + 1, 0 + 1)
       /\ db (dbStorage m2) !! storagePendingTransactionKey
          = db (dbStorage started) !! storagePendingTransactionKey
       /\ mutationSet m2 = []
       /\ pendingArchIDs m2 = [].
Proof.
  assert (tickNumbers (freshBuffer []) = Ok (0, 0)) as Hn
    by (vm_compute; reflexivity).
  assert (StartNextTick encode descriptors pool (freshBuffer [])
          = (Ok tt, started)) as H by (vm_compute; reflexivity).
  assert (avoidsTickKeys (mutationSet (simulated []))) as Hms
    by (repeat constructor).
  split; [exact Hn|]. split; [exact H|]. split; [exact Hms|].
  exact (in_flight_tick_can_be_finalized encode descriptors pool
           (freshBuffer []) started (mutationSet (simulated [])) [3%Z] 0
           Hn H Hms).
Defined.

Lemma FinalizeTick_keeps_journal_witness :
  avoidsTickKeys (mutationSet (simulated []))
  /\ db (dbStorage (snd (FinalizeTick (simulated []))))
       !! storagePendingTransactionKey
     = db (dbStorage (simulated [])) !! storagePendingTransactionKey
  /\ fst (Recover hashHex decode descriptors
            (withoutFaults (snd (FinalizeTick (simulated [])))))
     = fst (Recover hashHex decode descriptors (withoutFaults (simulated []))).
Proof.
  assert (avoidsTickKeys (mutationSet (simulated []))) as Hms
    by (repeat constructor).
  split; [exact Hms|].
  exact (FinalizeTick_keeps_journal hashHex decode descriptors (simulated [])
           Hms).
Defined.

Lemma empty_pool_round_trip_witness :
  (forall l bz, encode l = Ok bz -> decode bz = Ok l)
  /\ (forall tx, tx ∈ descriptors ->
        ForID (New (any := Z) (Transaction := string)) (ID tx) = [])
  /\ StartNextTick encode descriptors New (freshBuffer [])
     = (Ok tt, startedEmpty)
  /\ (exists bz, encode [] = Ok bz
        /\ db (dbStorage startedEmpty) !! storagePendingTransactionKey
           = Some (VBytes bz))
  /\ fst (Recover (any := Z) hashHex decode [] (withoutFaults startedEmpty))
     = Ok New.
Proof.
  assert (forall tx : Message Z, tx ∈ descriptors ->
            ForID (New (any := Z) (Transaction := string)) (ID tx) = [])
    as Hempty by (intros tx _; unfold ForID, New; by rewrite lookup_empty).
  assert (StartNextTick encode descriptors New (freshBuffer [])
          = (Ok tt, startedEmpty)) as H by (vm_compute; reflexivity).
  split; [exact WireFacts.decode_encode|]. split; [exact Hempty|].
  split; [exact H|].
  exact (empty_pool_round_trip hashHex encode decode descriptors [] New
           (freshBuffer []) startedEmpty WireFacts.decode_encode Hempty H).
Defined.

Lemma in_flight_journal_is_readable_witness :
  reachable (any := Z) encode inFlight started
  /\ inFlight started
  /\ exists pending buf,
       encode pending = Ok buf
       /\ db (dbStorage started) !! storagePendingTransactionKey
          = Some (VBytes buf)
       /\ ((forall l bz, encode l = Ok bz -> decode bz = Ok l) ->
           fst (Recover hashHex decode descriptors (withoutFaults started))
           = rebuildPool hashHex (indexByID descriptors ∅) pending New).
Proof.
  assert (reachable (any := Z) encode inFlight started) as Hreach.
  { apply (reach_start encode inFlight (freshBuffer []) descriptors pool).
    - apply reach_fresh.
    - exists 0. vm_compute. reflexivity. }
  assert (inFlight started) as Hfl by (exists 0; vm_compute; reflexivity).
  split; [exact Hreach|]. split; [exact Hfl|].
  exact (in_flight_journal_is_readable hashHex encode decode descriptors
           started Hreach Hfl).
Defined.

Lemma Recover_returns_the_pool_witness :
  (forall l bz, encode l = Ok bz -> decode bz = Ok l)
  /\ (forall tx v b, tx ∈ descriptors ->
        Encode tx v = Ok b -> Decode tx b = Ok v)
  /\ NoDup (ID <$> descriptors)
  /\ (forall id, ForID pool id <> [] -> id ∈ ID <$> descriptors)
  /\ builtByAdd hashHex pool
  /\ StartNextTick encode descriptors pool (freshBuffer []) = (Ok tt, started)
  /\ fst (Recover hashHex decode descriptors (withoutFaults started)) = Ok pool.
Proof.
  assert (forall tx v b, tx ∈ descriptors ->
            Encode tx v = Ok b -> Decode tx b = Ok v) as Hdesc.
  { intros tx v b Htx. unfold descriptors in Htx.
    apply elem_of_cons in Htx as [->|Htx];
      [apply WireFacts.intMessage_Decode_Encode|].
    apply elem_of_cons in Htx as [->|Htx];
      [apply WireFacts.intMessage_Decode_Encode|].
    by apply elem_of_nil in Htx. }
  assert (NoDup (ID <$> descriptors)) as Hnd.
  { cbn. apply NoDup_cons. split; [|apply NoDup_singleton].
    intros H%list_elem_of_singleton. discriminate H. }
  assert (forall id, pool !! id <> None -> id = 1%Z \/ id = 2%Z) as Hdom.
  { intros id H.
    destruct (decide (id = 1%Z)) as [->|H1]; [by left|].
    destruct (decide (id = 2%Z)) as [->|H2]; [by right|].
    destruct H. unfold pool, addTransaction, AddTransaction.
    by rewrite !lookup_insert_ne. }
  assert (forall id, ForID pool id <> [] -> id ∈ ID <$> descriptors) as Hcover.
  { intros id H. cbn.
    destruct (Hdom id) as [->| ->]; [|by left|right; by left].
    intros Hnone. destruct H. unfold ForID. by rewrite Hnone. }
  assert (builtByAdd hashHex pool) as Hbuilt.
  { intros id l Hl.
    destruct (Hdom id) as [->| ->]; [by rewrite Hl| |];
      vm_compute in Hl; injection Hl as <-;
      (split; [done|repeat constructor]). }
  assert (StartNextTick encode descriptors pool (freshBuffer [])
          = (Ok tt, started)) as Hstart by (vm_compute; reflexivity).
  split; [exact WireFacts.decode_encode|]. split; [exact Hdesc|].
  split; [exact Hnd|]. split; [exact Hcover|]. split; [exact Hbuilt|].
  split; [exact Hstart|].
  exact (Recover_returns_the_pool hashHex encode decode descriptors pool
           (freshBuffer []) started WireFacts.decode_encode Hdesc Hnd Hcover
           Hbuilt Hstart).
Defined.

Import HookScenario.

Lemma preBlocker_registers_then_sequences_witness :
  Forall (fun r => exists h, router (inl r) = Some h
                     /\ forall c, fst (h c (inl r)) = None) ["alpha"; "beta"]
  /\ [1; 2] = 1 :: [2]
  /\ router (inr 1) = Some handleTx
  /\ Forall (fun t => forall c, fst (handleTx c (inr t)) = None) [1; 2]
  /\ runHook [1; 2] ["alpha"; "beta"] []
     = (Returned (Some (mkResponsePreBlock false)) None,
        ["tx"; "tx"; "register beta"; "register alpha"]).
Proof.
  assert (Forall (fun r : string =>
                    exists h, router (inl r) = Some h
                      /\ forall c, fst (h c (inl r)) = None)
            ["alpha"; "beta"]) as Hregs.
  { repeat constructor; exists handleRegister; by split. }
  assert (Forall (fun t : N => forall c, fst (handleTx c (inr t)) = None)
            [1; 2]) as Htxs by (by repeat constructor).
  split; [exact Hregs|]. split; [reflexivity|]. split; [reflexivity|].
  split; [exact Htxs|].
  exact (preBlocker_registers_then_sequences shardName quoted router [1; 2]
           ["alpha"; "beta"] [] 1 [2] handleTx Hregs eq_refl eq_refl Htxs).
Defined.

Lemma preBlocker_registration_failure_witness :
  Forall (fun r => exists h, router (inl r) = Some h
                     /\ forall c, fst (h c (inl r)) = None) ["alpha"]
  /\ router (inl "") = Some handleRegister
  /\ handleRegister (registered router ["alpha"] []) (inl "")
     = (Some (backendError "empty namespace"), ["register alpha"])
  /\ runHook [1; 2] (["alpha"] ++ "" :: ["beta"]) []
     = (Returned None
          (Some (wrapped ("failed to register new shard with namespace "
                          ++ quoted (shardName ""))%string
                   (backendError "empty namespace"))),
        ["register alpha"]).
Proof.
  assert (Forall (fun r : string =>
                    exists h, router (inl r) = Some h
                      /\ forall c, fst (h c (inl r)) = None) ["alpha"])
    as Hpre.
  { repeat constructor; exists handleRegister; by split. }
  split; [exact Hpre|]. split; [reflexivity|]. split; [reflexivity|].
  exact (preBlocker_registration_failure shardName quoted router [1; 2]
           ["alpha"] "" ["beta"] [] handleRegister
           (backendError "empty namespace") ["register alpha"]
           Hpre eq_refl eq_refl).
Defined.

Lemma preBlocker_sequencing_failure_witness :
  Forall (fun r => exists h, router (inl r) = Some h
                     /\ forall c, fst (h c (inl r)) = None) ["alpha"]
  /\ head ([1] ++ [0]) = Some 1
  /\ router (inr 1) = Some handleTx
  /\ Forall (fun t => forall c, fst (handleTx c (inr t)) = None) [1]
  /\ handleTx (handled handleTx (inr <$> [1]) (registered router ["alpha"] []))
       (inr 0)
     = (Some (backendError "empty transaction"), ["tx"; "register alpha"])
  /\ runHook ([1] ++ 0 :: [2]) ["alpha"] []
     = (Returned (Some (mkResponsePreBlock false))
          (Some (wrapped "failed to process game shard tx data submission"
                   (backendError "empty transaction"))),
        ["tx"; "register alpha"]).
Proof.
  assert (Forall (fun r : string =>
                    exists h, router (inl r) = Some h
                      /\ forall c, fst (h c (inl r)) = None) ["alpha"])
    as Hregs.
  { repeat constructor; exists handleRegister; by split. }
  assert (Forall (fun t : N => forall c, fst (handleTx c (inr t)) = None) [1])
    as Hpre by (by repeat constructor).
  split; [exact Hregs|]. split; [reflexivity|]. split; [reflexivity|].
  split; [exact Hpre|]. split; [reflexivity|].
  exact (preBlocker_sequencing_failure shardName quoted router 1 [1] 0 [2]
           ["alpha"] [] handleTx (backendError "empty transaction")
           ["tx"; "register alpha"] Hregs eq_refl eq_refl Hpre eq_refl).
Defined.

Lemma preBlocker_response_witness :
  runHook [1; 0] ["alpha"] []
  = (Returned (Some (mkResponsePreBlock false))
       (Some (wrapped "failed to process game shard tx data submission"
                (backendError "empty transaction"))),
     ["tx"; "register alpha"])
  /\ (Some (mkResponsePreBlock false) = None ->
      exists e,
        Some (wrapped "failed to process game shard tx data submission"
                (backendError "empty transaction")) = Some e)
  /\ (forall r, Some (mkResponsePreBlock false) = Some r ->
        ConsensusParamsChanged r = false)
  /\ (Some (wrapped "failed to process game shard tx data submission"
              (backendError "empty transaction")) = None ->
      Some (mkResponsePreBlock false) = Some (mkResponsePreBlock false)).
Proof.
  assert (runHook [1; 0] ["alpha"] []
          = (Returned (Some (mkResponsePreBlock false))
               (Some (wrapped "failed to process game shard tx data submission"
                        (backendError "empty transaction"))),
             ["tx"; "register alpha"])) as H by reflexivity.
  split; [exact H|].
  exact (preBlocker_response shardName quoted router [1; 0] ["alpha"] [] _ _ _
           H).
Defined.

Lemma preBlocker_routes_first_tx_only_witness :
  (forall r, narrowRouter (inl r) = router (inl r))
  /\ narrowRouter (inr 1) = router (inr 1)
  /\ narrowRouter (inr 2) = None
  /\ preBlocker shardName quoted narrowRouter (1 :: [2; 3]) ["alpha"] []
     = preBlocker shardName quoted router (1 :: [2; 3]) ["alpha"] [].
Proof.
  assert (forall r, narrowRouter (inl r) = router (inl r)) as Hregs
    by (intros r; reflexivity).
  split; [exact Hregs|]. split; [reflexivity|]. split; [reflexivity|].
  exact (preBlocker_routes_first_tx_only shardName quoted router narrowRouter
           1 [2; 3] ["alpha"] [] Hregs eq_refl).
Defined.
